(** * sshutil: a shallow embedding of sshclient.go

    The development follows the Go source file [sshutil/sshclient.go]:
    [NewSSHClient], [RunCommand], [CopyFile] and [CopyDir].  The Go
    standard library ([path/filepath], [strconv], [net]) and the remote
    host are modelled as far as the four functions use them. *)

From Stdlib Require Import ZArith Lia.
From Stdlib Require Import Ascii.
From Stdlib Require String.
From Stdlib Require DecimalString.
From stdpp Require Import gmap strings list.

Set Warnings "-register-all".
Local Open Scope char_scope.
Local Open Scope stdpp_scope.

(** ** Strings *)

Module Str.

Definition is_slash (c : ascii) : bool := Ascii.eqb c "/".
Definition is_quote (c : ascii) : bool := Ascii.eqb c "'".

(** [strings.Split(s, "/")]: the elements between separators; never
    the empty list. *)
Fixpoint split (s : string) : list string :=
  match s with
  | EmptyString => [EmptyString]
  | String c s' =>
      if is_slash c then EmptyString :: split s'
      else match split s' with
           | x :: xs => String c x :: xs
           | [] => [String c EmptyString]
           end
  end.

(** [strings.Join(elems, "/")]. *)
Definition join (elems : list string) : string := String.concat "/" elems.

(** Does the character satisfying [p] occur in [s]? *)
Fixpoint has (p : ascii → bool) (s : string) : bool :=
  match s with
  | EmptyString => false
  | String c s' => p c || has p s'
  end.

(** Does [s] contain two separators in a row? *)
Fixpoint double_slash (s : string) : bool :=
  match s with
  | EmptyString => false
  | String c s' =>
      match s' with
      | String d _ => (is_slash c && is_slash d) || double_slash s'
      | EmptyString => false
      end
  end.

Definition head_is (p : ascii → bool) (s : string) : bool :=
  match s with
  | String c _ => p c
  | EmptyString => false
  end.

Definition is_empty (s : string) : bool :=
  match s with EmptyString => true | _ => false end.

End Str.

(** ** Errors

    Go's [error] values.  The two sentinels of [path/filepath] are
    compared by identity in [Walk], so they are constructors of their
    own: no error that the operating system or the transport produces is
    equal to one of them. *)

Inductive error : Type :=
  | SkipDir                                   (* filepath.SkipDir *)
  | SkipAll                                   (* filepath.SkipAll *)
  | PathError (op path : string) (errno : nat) (* *fs.PathError *)
  | RelError (basepath targpath : string)     (* "Rel: can't make ..." *)
  | ExitError (status : nat)                  (* *ssh.ExitError *)
  | TransportError (code : nat)               (* channel or connection failure *)
  | StatusError (code : nat)                  (* remote create refused *)
  | NilDereference.                           (* runtime panic on a nil FileInfo *)

Global Instance error_eq_dec : EqDecision error.
Proof. solve_decision. Defined.

(** A Go result pair [(T, error)] in which exactly one side is used. *)
Inductive result (A : Type) : Type :=
  | Ok (a : A)
  | Err (e : error).
Arguments Ok {A} a.
Arguments Err {A} e.

(** ** path/filepath on a Unix client

    The library works on the bytes of a path; here each function is
    given by what it computes on the elements between separators.  The
    volume name is empty and the separator is the slash. *)

Module filepath.

(** One element of the path being cleaned, against the elements kept so
    far ([stk], innermost first).  A [".."] removes the last kept
    element when there is one that is not itself a [".."]; otherwise it
    is dropped on a rooted path and kept on a relative one. *)
Definition clean_step (rooted : bool) (stk : list string) (e : string)
  : list string :=
  if String.eqb e "" then stk
  else if String.eqb e "." then stk
  else if String.eqb e ".." then
    match stk with
    | top :: below =>
        if String.eqb top ".." then e :: stk else below
    | [] => if rooted then [] else [e]
    end
  else e :: stk.

Definition clean_elems (rooted : bool) (elems : list string) : list string :=
  rev (fold_left (clean_step rooted) elems []).

Definition render (rooted : bool) (elems : list string) : string :=
  if rooted then "/" +:+ Str.join elems
  else match elems with
       | [] => "."
       | _ => Str.join elems
       end.

(** [filepath.Clean]. *)
Definition Clean (path : string) : string :=
  if Str.is_empty path then "."
  else
    let rooted := Str.head_is Str.is_slash path in
    render rooted (clean_elems rooted (Str.split path)).

(** [filepath.Join]: empty elements before the first non-empty one are
    ignored, the rest is joined with the separator and cleaned. *)
Fixpoint Join (elem : list string) : string :=
  match elem with
  | [] => ""
  | e :: rest =>
      if Str.is_empty e then Join rest else Clean (Str.join elem)
  end.

(** The elements that the scanning loop of [Rel] reads from a string:
    the pieces between separators, without a final empty piece. *)
Definition rel_elements (s : string) : list string :=
  match rev (Str.split s) with
  | e :: before => if Str.is_empty e then rev before else Str.split s
  | [] => []
  end.

(** The loop of [Rel]: skip the common leading elements; what is left of
    the base is climbed with [".."], what is left of the target is
    appended.  [None] is the "can't make relative" error, raised when
    the first differing base element is [".."]. *)
Fixpoint rel_walk (base targ : list string) : option (list string) :=
  match base, targ with
  | b :: base', t :: targ' =>
      if String.eqb t b then rel_walk base' targ'
      else if String.eqb b ".." then None
      else Some (map (λ _, "..") base ++ targ)
  | [], _ => Some targ
  | _, [] => Some (map (λ _, "..") base)
  end.

(** [filepath.Rel]. *)
Definition Rel (basepath targpath : string) : result string :=
  let base := Clean basepath in
  let targ := Clean targpath in
  if String.eqb targ base then Ok "."
  else
    let base := if String.eqb base "." then "" else base in
    let baseSlashed := Str.head_is Str.is_slash base in
    let targSlashed := Str.head_is Str.is_slash targ in
    if negb (Bool.eqb baseSlashed targSlashed) then
      Err (RelError basepath targpath)
    else
      match rel_walk (rel_elements base) (rel_elements targ) with
      | Some elems => Ok (Str.join elems)
      | None => Err (RelError basepath targpath)
      end.

End filepath.

(** ** strconv and net *)

Module strconv.
(** [strconv.Itoa] on Go's [int], read as an integer. *)
Definition Itoa (i : Z) : string :=
  DecimalString.NilZero.string_of_int (Z.to_int i).
End strconv.

Module net.
Definition needs_brackets (c : ascii) : bool :=
  Ascii.eqb c ":".

(** [net.JoinHostPort]: a host with a colon, read as a literal IPv6
    address, is put in square brackets. *)
Definition JoinHostPort (host port : string) : string :=
  if Str.has needs_brackets host then "[" +:+ host +:+ "]:" +:+ port
  else host +:+ ":" +:+ port.
End net.

(** ** The remote host

    The remote file system maps a cleaned path to what is there.  The
    root directory and the login directory always exist and are not
    keys of the map. *)

Inductive rnode : Type :=
  | RDir
  | RFile (data : string).

Global Instance rnode_eq_dec : EqDecision rnode.
Proof. solve_decision. Defined.

Module remote.

Fixpoint prefixes (acc : string) (elems : list string) : list string :=
  match elems with
  | [] => []
  | e :: elems' => (acc +:+ e) :: prefixes (acc +:+ e +:+ "/") elems'
  end.

Definition named (e : string) : bool :=
  negb (Str.is_empty e) && negb (String.eqb e ".").

(** The keys of a path: its ancestors, outermost first, and the path
    itself last.  ["/"] and ["."] have none. *)
Definition keys (path : string) : list string :=
  let q := filepath.Clean path in
  prefixes (if Str.head_is Str.is_slash q then "/" else "")
           (List.filter named (Str.split q)).

(** [mkdir -p] of one operand, key after key: a missing directory is
    made, an existing one is kept, a regular file in the way stops the
    operand with what was made so far. *)
Fixpoint ensure_dirs (ks : list string) (m : gmap string rnode)
  : gmap string rnode * bool :=
  match ks with
  | [] => (m, true)
  | k :: ks' =>
      match m !! k with
      | None => ensure_dirs ks' (<[k := RDir]> m)
      | Some RDir => ensure_dirs ks' m
      | Some (RFile _) => (m, false)
      end
  end.

(** An empty operand and an operand that starts with a dash (read as an
    option by [mkdir]) make nothing and fail here.  On a real host an
    option does what that [mkdir] makes of it; statements about the
    remote side leave such operands out. *)
Definition mkdir_p (operand : string) (m : gmap string rnode)
  : gmap string rnode * bool :=
  if Str.is_empty operand || Str.head_is (Ascii.eqb "-") operand then (m, false)
  else ensure_dirs (keys operand) m.

(** Every operand is tried; the command fails when one of them did. *)
Fixpoint mkdir_p_all (operands : list string) (m : gmap string rnode)
  : gmap string rnode * bool :=
  match operands with
  | [] => (m, true)
  | o :: rest =>
      let '(m1, ok1) := mkdir_p o m in
      let '(m2, ok2) := mkdir_p_all rest m1 in
      (m2, ok1 && ok2)
  end.

(** Open for writing, creating or truncating: the parent must be a
    directory and the path must not be one. *)
Definition create (path : string) (m : gmap string rnode)
  : option (string * gmap string rnode) :=
  match rev (keys path) with
  | [] => None
  | k :: ancestors =>
      let parent_ok :=
        match ancestors with
        | [] => true
        | p :: _ => bool_decide (m !! p = Some RDir)
        end in
      if parent_ok && negb (bool_decide (m !! k = Some RDir))
      then Some (k, <[k := RFile ""]> m)
      else None
  end.

End remote.

(** ** The remote shell

    The fragment of [sh] that the commands of [CopyDir] need: words,
    blanks and single quotes.  Between single quotes every character is
    literal; a quote that is not closed is a syntax error.  Outside
    quotes no other character is special in this model, where a real
    shell gives a meaning to many ([;], [&], [$] and more): the model is
    the shell on the lines that [mkdir_command] builds from a path
    without an apostrophe, and on a line whose only fault is a quote
    left open.  What a real shell does with the rest of a line after a
    quote that a path closed early is not modelled. *)

Module sh.

Definition push (cur : option string) (c : ascii) : option string :=
  match cur with
  | Some w => Some (w +:+ String c EmptyString)
  | None => Some (String c EmptyString)
  end.

Definition flush (cur : option string) (rest : option (list string))
  : option (list string) :=
  match cur with
  | Some w => cons w <$> rest
  | None => rest
  end.

Fixpoint scan (s : string) (quoted : bool) (cur : option string)
  : option (list string) :=
  match s with
  | EmptyString => if quoted then None else flush cur (Some [])
  | String c s' =>
      if quoted then
        if Str.is_quote c then scan s' false cur
        else scan s' true (push cur c)
      else if Str.is_quote c then
        scan s' true (Some (default EmptyString cur))
      else if Ascii.eqb c " " then flush cur (scan s' false None)
      else scan s' false (push cur c)
  end.

Definition words (command : string) : option (list string) :=
  scan command false None.

(** Exit status and effect of a command line.  [mkdir -p] is the one
    command this host knows; any other line ends with status 127. *)
Definition exec (command : string) (m : gmap string rnode)
  : gmap string rnode * nat :=
  match words command with
  | None => (m, 2)
  | Some [] => (m, 0)
  | Some (prog :: args) =>
      if String.eqb prog "mkdir" then
        match args with
        | flag :: operands =>
            if String.eqb flag "-p" then
              match operands with
              | [] => (m, 1)
              | _ => let '(m', ok) := remote.mkdir_p_all operands m in
                     (m', if ok then 0 else 1)
              end
            else (m, 127)
        | [] => (m, 1)
        end
      else (m, 127)
  end.

End sh.

(** ** The world of one connection *)

Inductive TaskKind : Type := DirCreate | FileCopy.

(** A transfer task: one entry of the walk with its two paths. *)
Record Task : Type := mkTask {
  task_kind : TaskKind;
  task_local : string;
  task_remote : string }.

Global Instance TaskKind_eq_dec : EqDecision TaskKind.
Proof. solve_decision. Defined.
Global Instance Task_eq_dec : EqDecision Task.
Proof. solve_decision. Defined.

(** Ghost events: a task is begun when its call is made and ended when
    the call has returned. *)
Inductive Event : Type :=
  | EvBegin (t : Task)
  | EvEnd (t : Task) (err : option error).

Global Instance Event_eq_dec : EqDecision Event.
Proof. solve_decision. Defined.

Record World : Type := mkWorld {
  remote_fs : gmap string rnode;        (* the remote file system *)
  local_files : gmap string string;     (* readable local files, by path *)
  faults : list (option nat);           (* transport faults still to come *)
  open_sessions : list nat;             (* sessions not yet closed *)
  open_local : list nat;                (* local files not yet closed *)
  open_remote : list nat;               (* remote files not yet closed *)
  next_fd : nat;
  trace : list Event }.

Definition M (A : Type) : Type := World → World * A.

Definition ret {A} (a : A) : M A := λ w, (w, a).
Definition bind {A B} (m : M A) (k : A → M B) : M B :=
  λ w, let '(w1, a) := m w in k a w1.

Notation "'let*' x ':=' m 'in' k" := (bind m (λ x, k))
  (at level 10, x pattern, m at level 100, k at level 200).

(** A deferred call runs when the body has returned, whatever it
    returned. *)
Definition defer {A} (cleanup : World → World) (body : M A) : M A :=
  λ w, let '(w1, a) := body w in (cleanup w1, a).

Definition emit (e : Event) : M unit :=
  λ w, (mkWorld (remote_fs w) (local_files w) (faults w) (open_sessions w)
                (open_local w) (open_remote w) (next_fd w) (trace w ++ [e]), tt).

Definition set_remote_fs (m : gmap string rnode) (w : World) : World :=
  mkWorld m (local_files w) (faults w) (open_sessions w)
          (open_local w) (open_remote w) (next_fd w) (trace w).

(** The next entry of the fault schedule; an exhausted schedule has no
    fault. *)
Definition next_fault : M (option nat) :=
  λ w, match faults w with
       | [] => (w, None)
       | f :: rest =>
           (mkWorld (remote_fs w) (local_files w) rest (open_sessions w)
                    (open_local w) (open_remote w) (next_fd w) (trace w), f)
       end.

Fixpoint remove_first (x : nat) (l : list nat) : list nat :=
  match l with
  | [] => []
  | y :: l' => if Nat.eqb x y then l' else y :: remove_first x l'
  end.

(** *** Primitives of the collaborators *)

(** [c.client.NewSession()] *)
Definition NewSession : M (result nat) :=
  let* f := next_fault in
  match f with
  | Some code => ret (Err (TransportError code))
  | None => λ w,
      (mkWorld (remote_fs w) (local_files w) (faults w)
               (next_fd w :: open_sessions w)
               (open_local w) (open_remote w) (S (next_fd w)) (trace w),
       Ok (next_fd w))
  end.

(** [session.Close()] *)
Definition session_Close (session : nat) (w : World) : World :=
  mkWorld (remote_fs w) (local_files w) (faults w)
          (remove_first session (open_sessions w))
          (open_local w) (open_remote w) (next_fd w) (trace w).

(** [session.Output(command)]: the standard output of the remote command,
    or an [ExitError] when its exit status is not zero.  The commands that
    are modelled print nothing. *)
Definition session_Output (session : nat) (command : string) : M (result string) :=
  let* f := next_fault in
  match f with
  | Some code => ret (Err (TransportError code))
  | None => λ w,
      let '(m, status) := sh.exec command (remote_fs w) in
      (set_remote_fs m w,
       match status with
       | O => Ok ""
       | _ => Err (ExitError status)
       end)
  end.

(** A local file open for reading, and a remote file open for writing. *)
Record LocalFile : Type := { lf_fd : nat; lf_data : string }.
Record RemoteFile : Type := { rf_fd : nat; rf_key : string }.

(** [os.Open(localPath)] *)
Definition os_Open (name : string) : M (result LocalFile) :=
  λ w, match local_files w !! name with
       | None => (w, Err (PathError "open" name 2))
       | Some data =>
           (mkWorld (remote_fs w) (local_files w) (faults w) (open_sessions w)
                    (next_fd w :: open_local w) (open_remote w)
                    (S (next_fd w)) (trace w),
            Ok {| lf_fd := next_fd w; lf_data := data |})
       end.

Definition local_Close (f : LocalFile) (w : World) : World :=
  mkWorld (remote_fs w) (local_files w) (faults w) (open_sessions w)
          (remove_first (lf_fd f) (open_local w)) (open_remote w)
          (next_fd w) (trace w).

(** [c.client.Create(remotePath)]: the remote destination is opened for
    writing through the connection; the file is created, or truncated
    when it exists. *)
Definition client_Create (remotePath : string) : M (result RemoteFile) :=
  let* f := next_fault in
  match f with
  | Some code => ret (Err (TransportError code))
  | None => λ w,
      match remote.create remotePath (remote_fs w) with
      | None => (w, Err (StatusError 4))
      | Some (k, m) =>
          (mkWorld m (local_files w) (faults w) (open_sessions w)
                   (open_local w) (next_fd w :: open_remote w)
                   (S (next_fd w)) (trace w),
           Ok {| rf_fd := next_fd w; rf_key := k |})
      end
  end.

Definition remote_Close (f : RemoteFile) (w : World) : World :=
  mkWorld (remote_fs w) (local_files w) (faults w) (open_sessions w)
          (open_local w) (remove_first (rf_fd f) (open_remote w))
          (next_fd w) (trace w).

(** [io.Copy(dst, src)]: a transport fault leaves the remote file as
    [Create] left it. *)
Definition io_Copy (dst : RemoteFile) (src : LocalFile) : M (option error) :=
  let* f := next_fault in
  match f with
  | Some code => ret (Some (TransportError code))
  | None => λ w,
      (set_remote_fs (<[rf_key dst := RFile (lf_data src)]> (remote_fs w)) w, None)
  end.

(** ** sshclient.go *)

Module time.
(** [time.Duration] counts nanoseconds. *)
Definition Second : Z := 1000000000.
End time.

Module ssh.
Inductive AuthMethod : Type :=
  | Password (secret : string)
  | PublicKeys (signer : string).

Inductive HostKeyCallback : Type :=
  | InsecureIgnoreHostKey
  | FixedHostKey (key : string)
  | KnownHosts (file : string).

Record ClientConfig : Type := {
  User : string;
  Auth : list AuthMethod;
  Timeout : Z;
  HostKey : HostKeyCallback }.

(** An established connection, named by the address it was dialled at. *)
Record Client : Type := { RemoteAddr : string }.
End ssh.

Record SSHClient : Type := {
  client : ssh.Client;
  config : ssh.ClientConfig }.

(** The configuration literal of [NewSSHClient]. *)
Definition sshConfig (user password : string) : ssh.ClientConfig :=
  {| ssh.User := user;
     ssh.Auth := [ssh.Password password];
     ssh.Timeout := 5 * time.Second;
     ssh.HostKey := ssh.InsecureIgnoreHostKey |}.

Section NewSSHClient.

(** [ssh.Dial], the secure session provider. *)
Variable Dial : string → string → ssh.ClientConfig → result ssh.Client.

Definition NewSSHClient (host : string) (port : Z) (user password : string)
  : result SSHClient :=
  let sshConfig := sshConfig user password in
  match Dial "tcp" (net.JoinHostPort host (strconv.Itoa port)) sshConfig with
  | Err err => Err err
  | Ok client => Ok {| client := client; config := sshConfig |}
  end.

End NewSSHClient.

(** [RunCommand]: the session is closed by a deferred call once it was
    obtained. *)
Definition RunCommand (command : string) : M (string * option error) :=
  let* r := NewSession in
  match r with
  | Err err => ret ("", Some err)
  | Ok session =>
      defer (session_Close session)
        (let* r := session_Output session command in
         match r with
         | Err err => ret ("", Some err)
         | Ok output => ret (output, None)
         end)
  end.

(** [CopyFile] *)
Definition CopyFile (localPath remotePath : string) : M (option error) :=
  let* r := os_Open localPath in
  match r with
  | Err err => ret (Some err)
  | Ok src =>
      defer (local_Close src)
        (let* r := client_Create remotePath in
         match r with
         | Err err => ret (Some err)
         | Ok dst =>
             defer (remote_Close dst)
               (let* err := io_Copy dst src in
                match err with
                | Some err => ret (Some err)
                | None => ret None
                end)
         end)
  end.

(** *** filepath.Walk over the local tree *)

Record FileInfo : Type := { IsDir : bool }.

(** What [Walk] finds at a path: [lstat] fails, or it is not a directory,
    or it is a directory whose names could be read or not.  The entries
    are in the order [readDirNames] returns them. *)
Inductive fsnode : Type :=
  | Missing (errno : nat)
  | Regular
  | Directory (rderr : option nat) (entries : list (string * fsnode)).

Definition WalkFunc : Type :=
  string → option FileInfo → option error → M (option error).

Definition is_regular (n : fsnode) : bool :=
  match n with Regular => true | _ => false end.

(** [walk], with the [lstat] of the caller folded in: at a [Missing] node
    the function is called with the [lstat] error and no [FileInfo]. *)
Fixpoint walk (walkFn : WalkFunc) (path : string) (n : fsnode) {struct n}
  : M (option error) :=
  match n with
  | Missing errno => walkFn path None (Some (PathError "lstat" path errno))
  | Regular => walkFn path (Some {| IsDir := false |}) None
  | Directory rderr entries =>
      let err := PathError "open" path <$> rderr in
      let* err1 := walkFn path (Some {| IsDir := true |}) err in
      if bool_decide (err ≠ None) || bool_decide (err1 ≠ None) then ret err1
      else
        (fix loop (names : list (string * fsnode)) : M (option error) :=
           match names with
           | [] => ret None
           | (name, child) :: rest =>
               let filename := filepath.Join [path; name] in
               let* err := walk walkFn filename child in
               match err with
               | None => loop rest
               | Some e =>
                   if is_regular child || bool_decide (e ≠ SkipDir)
                   then ret (Some e)
                   else loop rest
               end
           end) entries
  end.

(** [filepath.Walk] *)
Definition Walk (root : string) (n : fsnode) (fn : WalkFunc) : M (option error) :=
  let* err := walk fn root n in
  if bool_decide (err = Some SkipDir) || bool_decide (err = Some SkipAll)
  then ret None
  else ret err.

(** *** CopyDir *)

(** [fmt.Sprintf("mkdir -p '%s'", dstPath)] *)
Definition mkdir_command (dstPath : string) : string :=
  "mkdir -p '" +:+ dstPath +:+ "'".

(** The function literal that [CopyDir] hands to [Walk].  In the
    directory branch the source assigns the call of [RunCommand] to
    [err]: the error of the pair is what is tested.  The goroutine of the
    file branch is awaited ([wg.Wait]) right after it is started, and
    nothing else runs in between: its body is a call at that point. *)
Definition copyDirFn (localPath remotePath : string) : WalkFunc :=
  λ path info err,
    match err with
    | Some err => ret (Some err)
    | None =>
        match filepath.Rel localPath path with
        | Err err => ret (Some err)
        | Ok relPath =>
            let dstPath := filepath.Join [remotePath; relPath] in
            match info with
            | None => ret (Some NilDereference)
            | Some info =>
                if IsDir info then
                  let t := mkTask DirCreate path dstPath in
                  let* _ := emit (EvBegin t) in
                  let* r := RunCommand (mkdir_command dstPath) in
                  let err := snd r in
                  let* _ := emit (EvEnd t err) in
                  match err with
                  | Some err => ret (Some err)
                  | None => ret None
                  end
                else
                  let t := mkTask FileCopy path dstPath in
                  let* _ := emit (EvBegin t) in
                  let* err := CopyFile path dstPath in
                  let* _ := emit (EvEnd t err) in
                  match err with
                  | Some err => ret (Some err)
                  | None => ret None
                  end
            end
        end
    end.

Definition CopyDir (localPath remotePath : string) (tree : fsnode)
  : M (option error) :=
  Walk localPath tree (copyDirFn localPath remotePath).

(** ** The walk as a list

    The entries of a tree in the order [Walk] reaches them, each with the
    arguments the walk function receives there.  The children of a
    directory whose names could not be read are not reached. *)

Record Visit : Type := mkVisit {
  v_path : string;
  v_info : option FileInfo;
  v_err : option error }.

Fixpoint preorder (path : string) (n : fsnode) {struct n} : list Visit :=
  match n with
  | Missing errno => [mkVisit path None (Some (PathError "lstat" path errno))]
  | Regular => [mkVisit path (Some {| IsDir := false |}) None]
  | Directory rderr entries =>
      mkVisit path (Some {| IsDir := true |}) (PathError "open" path <$> rderr)
      :: match rderr with
         | Some _ => []
         | None =>
             (fix children (names : list (string * fsnode)) : list Visit :=
                match names with
                | [] => []
                | (name, child) :: rest =>
                    preorder (filepath.Join [path; name]) child ++ children rest
                end) entries
         end
  end.

(** A loop over the visits that stops at the first error. *)
Fixpoint visit_all (fn : WalkFunc) (vs : list Visit) : M (option error) :=
  match vs with
  | [] => ret None
  | v :: rest =>
      let* err := fn (v_path v) (v_info v) (v_err v) in
      match err with
      | Some e => ret (Some e)
      | None => visit_all fn rest
      end
  end.

(** The names a directory listing can hold. *)
Definition valid_name (n : string) : bool :=
  negb (Str.is_empty n) && negb (Str.has Str.is_slash n)
  && negb (String.eqb n ".") && negb (String.eqb n "..").

Fixpoint wf_tree (n : fsnode) : bool :=
  match n with
  | Directory _ entries =>
      (fix all (names : list (string * fsnode)) : bool :=
         match names with
         | [] => true
         | (name, child) :: rest => valid_name name && wf_tree child && all rest
         end) entries
  | _ => true
  end.

(** The entries of a tree by their names below the root, parents first. *)
Fixpoint entries_of (n : fsnode) : list (list string * fsnode) :=
  ([], n)
  :: match n with
     | Directory None entries =>
         (fix children (names : list (string * fsnode))
            : list (list string * fsnode) :=
            match names with
            | [] => []
            | (name, child) :: rest =>
                map (λ e, (name :: fst e, snd e)) (entries_of child)
                ++ children rest
            end) entries
     | _ => []
     end.

(** The path [Walk] builds for the entry with the given names. *)
Definition walk_path (root : string) (names : list string) : string :=
  fold_left (λ p n, filepath.Join [p; n]) names root.

(** The path of an entry relative to the root. *)
Definition rel_of (names : list string) : string :=
  match names with
  | [] => "."
  | _ => Str.join names
  end.

Definition visit_of (root : string) (e : list string * fsnode) : Visit :=
  let path := walk_path root (fst e) in
  match snd e with
  | Missing errno => mkVisit path None (Some (PathError "lstat" path errno))
  | Regular => mkVisit path (Some {| IsDir := false |}) None
  | Directory rderr _ =>
      mkVisit path (Some {| IsDir := true |}) (PathError "open" path <$> rderr)
  end.

(** The task of a visit, when the walk function gets as far as one. *)
Definition task_of (localPath remotePath : string) (v : Visit) : option Task :=
  match v_err v with
  | Some _ => None
  | None =>
      match filepath.Rel localPath (v_path v) with
      | Err _ => None
      | Ok relPath =>
          match v_info v with
          | None => None
          | Some info =>
              Some (mkTask (if IsDir info then DirCreate else FileCopy)
                           (v_path v) (filepath.Join [remotePath; relPath]))
          end
      end
  end.

(** The errors the collaborators hand to a task, as they are. *)
Definition raw_error (t : Task) (e : error) : bool :=
  match task_kind t, e with
  | DirCreate, TransportError _ => true
  | DirCreate, ExitError _ => true
  | FileCopy, PathError op path errno =>
      String.eqb op "open" && String.eqb path (task_local t) && Nat.eqb errno 2
  | FileCopy, TransportError _ => true
  | FileCopy, StatusError _ => true
  | _, _ => false
  end.

(** The traces of a sequential run over a list of visits. *)
Inductive seq_trace (task : Visit → option Task)
  : list Visit → list Event → option error → Prop :=
  | seq_done : seq_trace task [] [] None
  | seq_refused v vs e :
      task v = None → seq_trace task (v :: vs) [] (Some e)
  | seq_failed v vs t e :
      task v = Some t → raw_error t e = true →
      seq_trace task (v :: vs) [EvBegin t; EvEnd t (Some e)] (Some e)
  | seq_next v vs t evs r :
      task v = Some t → seq_trace task vs evs r →
      seq_trace task (v :: vs) (EvBegin t :: EvEnd t None :: evs) r.

(** The number of file copies in flight, and its peak over a trace. *)
Definition flight_step (cur : nat) (e : Event) : nat :=
  match e with
  | EvBegin t => match task_kind t with FileCopy => S cur | DirCreate => cur end
  | EvEnd t _ => match task_kind t with FileCopy => pred cur | DirCreate => cur end
  end.

Fixpoint peak_in_flight (cur : nat) (evs : list Event) : nat :=
  match evs with
  | [] => cur
  | e :: rest => Nat.max cur (peak_in_flight (flight_step cur e) rest)
  end.

(** ** What a run does to the remote file system

    Without transport faults a successful task is a list of two kinds of
    steps on the remote map. *)

Inductive rop : Type :=
  | EnsureDir (k : string)
  | PutFile (parent : option string) (k : string) (data : string).

Definition rop_run (o : rop) (m : gmap string rnode) : option (gmap string rnode) :=
  match o with
  | EnsureDir k =>
      match m !! k with
      | None => Some (<[k := RDir]> m)
      | Some RDir => Some m
      | Some (RFile _) => None
      end
  | PutFile parent k data =>
      let parent_ok :=
        match parent with
        | None => true
        | Some p => bool_decide (m !! p = Some RDir)
        end in
      if parent_ok && negb (bool_decide (m !! k = Some RDir))
      then Some (<[k := RFile data]> m)
      else None
  end.

Fixpoint rops_run (os : list rop) (m : gmap string rnode)
  : option (gmap string rnode) :=
  match os with
  | [] => Some m
  | o :: rest =>
      match rop_run o m with
      | Some m' => rops_run rest m'
      | None => None
      end
  end.

Definition operand_ok (o : string) : bool :=
  negb (Str.is_empty o || Str.head_is (Ascii.eqb "-") o).

(** The steps of a task, when it can succeed at all. *)
Definition rops_of (files : gmap string string) (t : Task) : option (list rop) :=
  match task_kind t with
  | DirCreate =>
      match sh.words (mkdir_command (task_remote t)) with
      | Some (prog :: flag :: o :: operands) =>
          if String.eqb prog "mkdir" && String.eqb flag "-p"
             && forallb operand_ok (o :: operands)
          then Some (EnsureDir <$> concat (remote.keys <$> (o :: operands)))
          else None
      | _ => None
      end
  | FileCopy =>
      match files !! task_local t, rev (remote.keys (task_remote t)) with
      | Some data, k :: ancestors => Some [PutFile (head ancestors) k data]
      | _, _ => None
      end
  end.

(** What is on the remote side stays there: a directory stays a
    directory, a file stays a file. *)
Definition persists (m m' : gmap string rnode) : Prop :=
  ∀ p, match m !! p with
       | Some RDir => m' !! p = Some RDir
       | Some (RFile _) => ∃ d, m' !! p = Some (RFile d)
       | None => True
       end.

(** What [session.Output] makes of a command without a transport fault. *)
Definition exec_result (command : string) (m : gmap string rnode)
  : gmap string rnode * option error :=
  let '(m', status) := sh.exec command m in
  (m', match status with O => None | _ => Some (ExitError status) end).

(** What [Create] and [io.Copy] make of a file without a transport fault. *)
Definition copy_result (data remotePath : string) (m : gmap string rnode)
  : gmap string rnode * option error :=
  match remote.create remotePath m with
  | None => (m, Some (StatusError 4))
  | Some (k, m') => (<[k := RFile data]> m', None)
  end.

(** What a task makes of the remote file system without a transport
    fault. *)
Definition task_result (files : gmap string string) (t : Task)
    (m : gmap string rnode) : gmap string rnode * option error :=
  match task_kind t with
  | DirCreate => exec_result (mkdir_command (task_remote t)) m
  | FileCopy =>
      match files !! task_local t with
      | None => (m, Some (PathError "open" (task_local t) 2))
      | Some data => copy_result data (task_remote t) m
      end
  end.

(** ** Cleaned paths by their elements *)

Definition rooted_of (p : string) : bool := Str.head_is Str.is_slash p.

Definition elems_of (p : string) : list string :=
  if Str.is_empty p then [] else filepath.clean_elems (rooted_of p) (Str.split p).

(** The kept elements of a cleaned path, innermost first: names, then
    only on a relative path a run of [".."]. *)
Fixpoint normal (rooted : bool) (stk : list string) : bool :=
  match stk with
  | [] => true
  | e :: below =>
      if String.eqb e ".." then negb rooted && forallb (String.eqb "..") below
      else valid_name e && normal rooted below
  end.

(** Elements that are neither empty nor hold a separator. *)
Definition solid (e : string) : Prop :=
  Str.is_empty e = false ∧ Str.has Str.is_slash e = false.

(** ** Worlds and trees of the examples *)

Definition empty_world : World :=
  mkWorld ∅ ∅ [] [] [] [] 0 [].

Definition with_files (files : gmap string string) (w : World) : World :=
  mkWorld (remote_fs w) files (faults w) (open_sessions w)
          (open_local w) (open_remote w) (next_fd w) (trace w).

Definition with_faults (fs : list (option nat)) (w : World) : World :=
  mkWorld (remote_fs w) (local_files w) fs (open_sessions w)
          (open_local w) (open_remote w) (next_fd w) (trace w).

(** [L/a/b/c.txt] *)
Definition tree_abc : fsnode :=
  Directory None
    [("a", Directory None [("b", Directory None [("c.txt", Regular)])])].

Definition files_abc : gmap string string := {[ "L/a/b/c.txt" := "text" ]}.

(** Two sibling directories. *)
Definition tree_two_dirs : fsnode :=
  Directory None [("a", Directory None []); ("b", Directory None [])].

(** Two files in one directory. *)
Definition tree_two_files : fsnode :=
  Directory None [("f1", Regular); ("f2", Regular)].

Definition files_two : gmap string string :=
  {[ "L/f1" := "one"; "L/f2" := "two" ]}.

(** A directory whose name holds an apostrophe. *)
Definition tree_quote : fsnode :=
  Directory None [("it's mine", Directory None [])].

(** The kind of what is at a remote path, without the contents. *)
Definition kind (o : option rnode) : option bool :=
  match o with
  | None => None
  | Some RDir => Some true
  | Some (RFile _) => Some false
  end.


(** A world in which one remote path holds a regular file. *)
Definition world_file_at (path : string) : World :=
  mkWorld {[ path := RFile "x" ]} ∅ [] [] [] [] 0 [].

(** The handles a world holds open. *)
Definition handles (w : World) : list nat * list nat * list nat :=
  (open_sessions w, open_local w, open_remote w).

(** An error value that is none of the two sentinels of the walk. *)
Definition plain_error (err : option error) : Prop :=
  err ≠ Some SkipDir ∧ err ≠ Some SkipAll.

(** The tree of the end-to-end scenario. *)
Definition tree_scenario : fsnode :=
  Directory None
    [("a", Directory None
             [("b", Directory None [("file2.txt", Regular)]);
              ("file1.txt", Regular)]);
     ("empty", Directory None [])].

Definition files_scenario : gmap string string :=
  {[ "L/a/file1.txt" := "hi"; "L/a/b/file2.txt" := "" ]}.

(** ** Tasks of the entries *)

(** The task of an entry of the tree that can be read. *)
Definition entry_task (L R : string) (e : list string * fsnode) : Task :=
  mkTask (match snd e with Regular => FileCopy | _ => DirCreate end)
         (walk_path L (fst e)) (filepath.Join [R; rel_of (fst e)]).

(** The events of tasks that all end without error. *)
Definition ok_events (ts : list Task) : list Event :=
  flat_map (λ t, [EvBegin t; EvEnd t None]) ts.

(** Can the entry be read: [lstat] works and, for a directory, its names
    can be listed. *)
Definition readable (x : fsnode) : bool :=
  match x with
  | Regular => true
  | Directory None _ => true
  | _ => false
  end.

(** What is on the remote side stays as it is, contents included. *)
Definition extends (m m' : gmap string rnode) : Prop :=
  ∀ p x, m !! p = Some x → m' !! p = Some x.

(** A world whose transport fails at the first call. *)
Definition world_session_fault : World :=
  with_faults [Some 3] empty_world.

(** The transport fails in the sixth call: the copy of the second file. *)
Definition world_late_fault : World :=
  with_faults [None; None; None; None; None; Some 7]
    (with_files files_two empty_world).

(** ** Running again after a failure *)

(** The steps of a whole run over a list of visits, when every visit has
    a task that can succeed. *)
Fixpoint run_rops (files : gmap string string) (L R : string)
    (vs : list Visit) : option (list rop) :=
  match vs with
  | [] => Some []
  | v :: rest =>
      match task_of L R v with
      | Some t =>
          match rops_of files t, run_rops files L R rest with
          | Some o, Some os => Some (o ++ os)
          | _, _ => None
          end
      | None => None
      end
  end.

(** A run [B] that starts from what a failed run left catches up with a
    run [A] that ends in [Afin]: where it differs from [A], it has the
    kind of the end already, and the place is a directory at the end or
    is written by a step still to come. *)
Definition recovers (remaining : list rop) (A B Afin : gmap string rnode) : Prop :=
  ∀ p, B !! p = A !! p
       ∨ (kind (B !! p) = kind (Afin !! p)
          ∧ (Afin !! p = Some RDir
             ∨ ∃ parent data, In (PutFile parent p data) remaining)).

(** ** Operands that reach [mkdir] as they are

    Between the single quotes that [mkdir_command] puts around a path
    every character is literal to the shell except the apostrophe, and
    [mkdir] reads an operand as a path unless it begins with a dash.  For
    such operands the host above does what a real one does.  A path with
    an apostrophe ends the quoting early, and what the rest of the line
    then does on a real host is the shell's to decide; the statements
    about the state of the remote side are made for runs in which no
    directory-create command is of that kind. *)

Definition plain_operand (p : string) : bool :=
  negb (Str.has Str.is_quote p) && negb (Str.head_is (Ascii.eqb "-") p).

(** The operand of the command that a visit sends, if it sends one. *)
Definition plain_visit (L R : string) (v : Visit) : bool :=
  match task_of L R v with
  | Some t =>
      match task_kind t with
      | DirCreate => plain_operand (task_remote t)
      | FileCopy => true
      end
  | None => true
  end.

(** Every directory-create command that [CopyDir] can send for the tree
    has a plain operand. *)
Definition plain_run (L R : string) (tree : fsnode) : bool :=
  forallb (plain_visit L R) (preorder L tree).

(** No name of the tree holds an apostrophe. *)
Fixpoint quote_free (n : fsnode) : bool :=
  match n with
  | Directory _ entries =>
      (fix all (names : list (string * fsnode)) : bool :=
         match names with
         | [] => true
         | (name, child) :: rest =>
             negb (Str.has Str.is_quote name) && quote_free child && all rest
         end) entries
  | _ => true
  end.

(** What a task that ended without error has put on the remote side: a
    directory with all its ancestors, or a file with the bytes of the
    local one. *)
Definition in_place (files : gmap string string) (t : Task)
    (m : gmap string rnode) : Prop :=
  match task_kind t with
  | DirCreate => ∀ k, In k (remote.keys (task_remote t)) → m !! k = Some RDir
  | FileCopy =>
      ∃ data, files !! task_local t = Some data
              ∧ m !! task_remote t = Some (RFile data)
  end.

(** The remote paths that the entries of the tree are sent to. *)
Definition targets (R : string) (tree : fsnode) : list string :=
  map (λ e, filepath.Join [R; rel_of (fst e)]) (entries_of tree).


(** The remote side holds a file that no entry is sent to and an old
    copy of the first file; the transport fails in the fourth call. *)
Definition world_kept : World :=
  mkWorld {[ "/tmp/keep.txt" := RFile "old"; "/tmp/dst" := RDir;
             "/tmp" := RDir; "/tmp/dst/f1" := RFile "stale" ]}
          files_two [None; None; None; Some 7] [] [] [] 0 [].


(** * Proofs *)

Arguments filepath.Clean : simpl never.
Arguments filepath.Join : simpl never.
Arguments filepath.Rel : simpl never.
Arguments sh.words : simpl never.
Arguments sh.exec : simpl never.
Arguments remote.keys : simpl never.
Arguments remote.create : simpl never.
Arguments mkdir_command : simpl never.

Lemma fsnode_ind' (P : fsnode → Prop) :
  (∀ errno, P (Missing errno)) →
  P Regular →
  (∀ rderr entries, Forall (λ e, P (snd e)) entries → P (Directory rderr entries)) →
  ∀ n, P n.
Proof.
  intros HM HR HD. fix IH 1. intros [errno| |rderr entries];
    [apply HM | apply HR |].
  apply HD. induction entries as [|[name child] entries IHes].
  - constructor.
  - constructor; [apply IH | apply IHes].
Qed.

(** ** Connection set-up *)

(** C10: every call of [NewSSHClient] dials with a time-out of exactly
    five seconds, whatever the host, port, user and password are. *)
Theorem NewSSHClient_dial_timeout
    (Dial : string → string → ssh.ClientConfig → result ssh.Client)
    (host : string) (port : Z) (user password : string) :
  ∃ cfg : ssh.ClientConfig,
    ssh.Timeout cfg = (5 * time.Second)%Z
    ∧ (5 * time.Second)%Z = 5000000000%Z
    ∧ NewSSHClient Dial host port user password =
        match Dial "tcp" (net.JoinHostPort host (strconv.Itoa port)) cfg with
        | Err err => Err err
        | Ok cl => Ok {| client := cl; config := cfg |}
        end.
Proof. exists (sshConfig user password). repeat split. Qed.

(** C8, as the code has it: [NewSSHClient] always authenticates with the
    password it is given and always accepts any host key; neither is an
    input of its own. *)
Theorem NewSSHClient_fixed_policy
    (Dial : string → string → ssh.ClientConfig → result ssh.Client)
    (host : string) (port : Z) (user password : string) :
  ∃ cfg : ssh.ClientConfig,
    ssh.HostKey cfg = ssh.InsecureIgnoreHostKey
    ∧ ssh.Auth cfg = [ssh.Password password]
    ∧ ssh.User cfg = user
    ∧ NewSSHClient Dial host port user password =
        match Dial "tcp" (net.JoinHostPort host (strconv.Itoa port)) cfg with
        | Err err => Err err
        | Ok cl => Ok {| client := cl; config := cfg |}
        end.
Proof. exists (sshConfig user password). repeat split. Qed.

(** C8, counterexample: no call of [NewSSHClient] yields a client whose
    host-key policy is a pinned key, a known-hosts file, or whose
    credential is a key. *)
Lemma NewSSHClient_no_policy_choice :
  ¬ ∃ Dial host port user password c,
      NewSSHClient Dial host port user password = Ok c
      ∧ (ssh.HostKey (config c) ≠ ssh.InsecureIgnoreHostKey
         ∨ ssh.Auth (config c) ≠ [ssh.Password password]).
Proof.
  intros (Dial & host & port & user & password & c & Hc & Hpol).
  unfold NewSSHClient in Hc.
  destruct (Dial _ _ _) as [cl|err]; [|discriminate].
  injection Hc as <-. simpl in Hpol. destruct Hpol as [H|H]; apply H; reflexivity.
Qed.

(** ** Scoped resources *)

Lemma remove_first_head (x : nat) (l : list nat) : remove_first x (x :: l) = l.
Proof. simpl. by rewrite Nat.eqb_refl. Qed.

(** C6: [RunCommand] and [CopyFile] leave open exactly the handles that
    were open before the call, on every exit path: whatever the fault
    schedule, the remote file system and the local files are. *)
Theorem scoped_resources_released :
  (∀ (command : string) (w : World),
      handles (fst (RunCommand command w)) = handles w)
  ∧ (∀ (localPath remotePath : string) (w : World),
      handles (fst (CopyFile localPath remotePath w)) = handles w).
Proof.
  split.
  - intros command w. unfold RunCommand, NewSession, session_Output, bind,
      defer, next_fault, ret, handles.
    destruct w as [m lf fs ss ol or fd tr]; simpl.
    destruct fs as [|[code|] fs]; simpl; try reflexivity;
      try destruct fs as [|[code'|] fs]; simpl;
      try (destruct (sh.exec command m) as [m' status]; destruct status); simpl;
      rewrite ?Nat.eqb_refl; reflexivity.
  - intros localPath remotePath w. unfold CopyFile, os_Open, client_Create,
      io_Copy, bind, defer, next_fault, ret, handles.
    destruct w as [m lf fs ss ol or fd tr]; simpl.
    destruct (lf !! localPath) as [data|]; simpl; [|reflexivity].
    destruct fs as [|[code|] fs]; simpl;
      try destruct (remote.create remotePath m) as [[k m']|]; simpl;
      try destruct fs as [|[code'|] fs]; simpl;
      rewrite ?Nat.eqb_refl; reflexivity.
Qed.

(** ** The walk is a loop over the pre-order list *)

Lemma visit_all_app (fn : WalkFunc) (l1 l2 : list Visit) (w : World) :
  visit_all fn (l1 ++ l2) w =
    let '(w1, err) := visit_all fn l1 w in
    match err with
    | Some e => (w1, Some e)
    | None => visit_all fn l2 w1
    end.
Proof.
  revert w. induction l1 as [|v l1 IH]; intros w; simpl; [reflexivity|].
  unfold bind. destruct (fn _ _ _ w) as [w1 [e|]]; [reflexivity|]. apply IH.
Qed.

Lemma preorder_plain (path : string) (n : fsnode) :
  Forall (λ v, plain_error (v_err v)) (preorder path n).
Proof.
  revert path. induction n as [errno| |rderr entries IH] using fsnode_ind';
    intros path; simpl.
  - repeat constructor; simpl; discriminate.
  - repeat constructor; simpl; discriminate.
  - constructor.
    + split; destruct rderr; simpl; discriminate.
    + destruct rderr; [constructor|].
      induction IH as [|[name child] entries Hc _ IHes]; [constructor|].
      apply Forall_app; split; [apply Hc | apply IHes].
Qed.

Section WalkAsLoop.

Variable fn : WalkFunc.

(** The function stops the walk when it is handed an error, and never
    answers with one of the two sentinels unless it was handed one. *)
Hypothesis fn_stops : ∀ path info e w, snd (fn path info (Some e) w) ≠ None.
Hypothesis fn_plain : ∀ path info err w,
  plain_error err → plain_error (snd (fn path info err w)).

Lemma visit_all_plain (vs : list Visit) (w : World) :
  Forall (λ v, plain_error (v_err v)) vs →
  plain_error (snd (visit_all fn vs w)).
Proof.
  revert w. induction vs as [|v vs IH]; intros w Hvs; simpl.
  - split; discriminate.
  - apply Forall_cons in Hvs as [Hv Hvs]. unfold bind.
    pose proof (fn_plain (v_path v) (v_info v) (v_err v) w Hv) as Hp.
    destruct (fn _ _ _ w) as [w1 [e|]]; simpl in *; [exact Hp|].
    apply IH, Hvs.
Qed.

Lemma walk_visit_all (n : fsnode) :
  ∀ path w, walk fn path n w = visit_all fn (preorder path n) w.
Proof.
  induction n as [errno| |rderr entries IH] using fsnode_ind'; intros path w.
  - simpl. unfold bind.
    pose proof (fn_stops path None (PathError "lstat" path errno) w) as Hs.
    destruct (fn _ _ _ w) as [w1 [e|]]; simpl in *; [reflexivity | congruence].
  - simpl. unfold bind.
    destruct (fn _ _ _ w) as [w1 [e|]]; reflexivity.
  - cbn [walk preorder visit_all v_path v_info v_err]. unfold bind at 1 3.
    destruct rderr as [errno|]; cbn [fmap option_fmap option_map].
    + pose proof (fn_stops path (Some {| IsDir := true |})
                    (PathError "open" path errno) w) as Hs.
      destruct (fn _ _ _ w) as [w1 [e|]]; simpl in *; [reflexivity | congruence].
    + destruct (fn _ _ _ w) as [w1 [e|]]; [reflexivity|].
      rewrite ?bool_decide_eq_false_2 by (intros H; apply H; reflexivity).
      cbn [orb]. clear w. revert w1.
      induction IH as [|[name child] entries Hc _ IHes]; intros w1;
        [reflexivity|].
      rewrite visit_all_app. unfold bind at 1. rewrite Hc.
      pose proof (visit_all_plain (preorder (filepath.Join [path; name]) child)
                    w1 (preorder_plain _ _)) as [Hp _].
      destruct (visit_all fn _ w1) as [w2 [e|]]; simpl in *.
      * rewrite (bool_decide_eq_true_2 (e ≠ SkipDir)) by congruence.
        rewrite orb_true_r. reflexivity.
      * apply IHes.
Qed.

Lemma Walk_visit_all (root : string) (n : fsnode) (w : World) :
  Walk root n fn w = visit_all fn (preorder root n) w.
Proof.
  unfold Walk, bind. rewrite walk_visit_all.
  pose proof (visit_all_plain (preorder root n) w (preorder_plain _ _)) as [H1 H2].
  destruct (visit_all fn _ w) as [w1 err]; simpl in *.
  rewrite !bool_decide_eq_false_2 by assumption. reflexivity.
Qed.

End WalkAsLoop.

(** ** The collaborators, call by call *)

Lemma persists_refl (m : gmap string rnode) : persists m m.
Proof. intros p. destruct (m !! p) as [[|d]|]; eauto. Qed.

Lemma persists_trans (m1 m2 m3 : gmap string rnode) :
  persists m1 m2 → persists m2 m3 → persists m1 m3.
Proof.
  intros H12 H23 p. specialize (H12 p). specialize (H23 p).
  destruct (m1 !! p) as [[|d]|]; [| |exact I].
  - rewrite H12 in H23. exact H23.
  - destruct H12 as [d' Hd']. rewrite Hd' in H23. exact H23.
Qed.

Lemma persists_insert_dir (m : gmap string rnode) (k : string) :
  m !! k = None → persists m (<[k := RDir]> m).
Proof.
  intros Hk p. destruct (decide (k = p)) as [->|Hne].
  - rewrite Hk. exact I.
  - rewrite lookup_insert_ne by exact Hne. apply persists_refl.
Qed.

Lemma persists_insert_file (m : gmap string rnode) (k data : string) :
  m !! k ≠ Some RDir → persists m (<[k := RFile data]> m).
Proof.
  intros Hk p. destruct (decide (k = p)) as [->|Hne].
  - rewrite lookup_insert_eq. destruct (m !! p) as [[|d]|]; [congruence|eauto|exact I].
  - rewrite lookup_insert_ne by exact Hne. apply persists_refl.
Qed.

Lemma ensure_dirs_persists (ks : list string) (m : gmap string rnode) :
  persists m (fst (remote.ensure_dirs ks m)).
Proof.
  revert m. induction ks as [|k ks IH]; intros m; simpl; [apply persists_refl|].
  destruct (m !! k) as [[|d]|] eqn:Hk; [apply IH|apply persists_refl|].
  eapply persists_trans; [apply persists_insert_dir, Hk | apply IH].
Qed.

Lemma mkdir_p_all_persists (operands : list string) (m : gmap string rnode) :
  persists m (fst (remote.mkdir_p_all operands m)).
Proof.
  revert m. induction operands as [|o os IH]; intros m; simpl;
    [apply persists_refl|].
  destruct (remote.mkdir_p o m) as [m1 ok1] eqn:H1.
  specialize (IH m1). destruct (remote.mkdir_p_all os m1) as [m2 ok2]; simpl in *.
  eapply persists_trans; [|exact IH].
  unfold remote.mkdir_p in H1.
  destruct (_ || _).
  - injection H1 as <- _. apply persists_refl.
  - pose proof (ensure_dirs_persists (remote.keys o) m) as Hp.
    rewrite H1 in Hp. exact Hp.
Qed.

Lemma exec_persists (command : string) (m : gmap string rnode) :
  persists m (fst (sh.exec command m)).
Proof.
  unfold sh.exec.
  destruct (sh.words command) as [[|prog args]|]; simpl; try apply persists_refl.
  destruct (String.eqb prog "mkdir"); [|apply persists_refl].
  destruct args as [|flag operands]; [apply persists_refl|].
  destruct (String.eqb flag "-p"); [|apply persists_refl].
  destruct operands as [|o os]; [apply persists_refl|].
  pose proof (mkdir_p_all_persists (o :: os) m) as Hp.
  destruct (remote.mkdir_p_all (o :: os) m) as [m' ok]. exact Hp.
Qed.

Lemma create_persists (path k : string) (m m' : gmap string rnode) :
  remote.create path m = Some (k, m') →
  persists m m' ∧ m' !! k = Some (RFile "").
Proof.
  unfold remote.create. destruct (rev (remote.keys path)) as [|k0 anc];
    [discriminate|].
  destruct (_ && _) eqn:Hok; [|discriminate].
  intros [= <- <-]. apply andb_true_iff in Hok as [_ Hk].
  apply negb_true_iff, bool_decide_eq_false in Hk.
  split; [apply persists_insert_file, Hk | apply lookup_insert_eq].
Qed.

Lemma copy_result_persists (data remotePath : string) (m : gmap string rnode) :
  persists m (fst (copy_result data remotePath m)).
Proof.
  unfold copy_result.
  destruct (remote.create remotePath m) as [[k m']|] eqn:Hc;
    [|apply persists_refl].
  apply create_persists in Hc as [Hp Hk]. simpl.
  eapply persists_trans; [exact Hp|].
  apply persists_insert_file. congruence.
Qed.

Lemma RunCommand_spec (command : string) (w : World) :
  let '(w', (_, err)) := RunCommand command w in
  trace w' = trace w ∧ local_files w' = local_files w
  ∧ ((∃ c, err = Some (TransportError c) ∧ faults w ≠ []
           ∧ remote_fs w' = remote_fs w)
     ∨ ((remote_fs w', err) = exec_result command (remote_fs w)
        ∧ (faults w = [] → faults w' = []))).
Proof.
  unfold RunCommand, NewSession, session_Output, bind, defer, next_fault, ret,
    exec_result.
  destruct w as [m lf fs ss ol or fd tr]; simpl.
  destruct fs as [|[code|] fs]; simpl.
  - destruct (sh.exec command m) as [m' [|status]]; simpl; auto.
  - split; [reflexivity|]. split; [reflexivity|]. left. eauto.
  - destruct fs as [|[code|] fs]; simpl.
    + destruct (sh.exec command m) as [m' [|status]]; simpl;
        (split; [reflexivity|]; split; [reflexivity|]; right; split;
         [reflexivity | discriminate]).
    + split; [reflexivity|]. split; [reflexivity|]. left. eauto.
    + destruct (sh.exec command m) as [m' [|status]]; simpl;
        (split; [reflexivity|]; split; [reflexivity|]; right; split;
         [reflexivity | discriminate]).
Qed.

Lemma CopyFile_spec (localPath remotePath : string) (w : World) :
  let '(w', err) := CopyFile localPath remotePath w in
  trace w' = trace w ∧ local_files w' = local_files w
  ∧ ((err = Some (PathError "open" localPath 2)
      ∧ local_files w !! localPath = None ∧ w' = w)
     ∨ (∃ c, err = Some (TransportError c) ∧ faults w ≠ []
             ∧ persists (remote_fs w) (remote_fs w'))
     ∨ (∃ data, local_files w !! localPath = Some data
                ∧ (remote_fs w', err) = copy_result data remotePath (remote_fs w)
                ∧ (faults w = [] → faults w' = []))).
Proof.
  unfold CopyFile, os_Open, client_Create, io_Copy, bind, defer, next_fault,
    ret, copy_result.
  destruct w as [m lf fs ss ol or fd tr]; simpl.
  destruct (lf !! localPath) as [data|] eqn:Hl; simpl; [|auto 6].
  destruct fs as [|[code|] fs]; simpl.
  - destruct (remote.create remotePath m) as [[k m']|] eqn:Hc; simpl.
    + split; [reflexivity|]. split; [reflexivity|]. right; right.
      exists data. auto.
    + split; [reflexivity|]. split; [reflexivity|]. right; right.
      exists data. auto.
  - split; [reflexivity|]. split; [reflexivity|]. right; left.
    exists code. split; [reflexivity|]. split; [discriminate|apply persists_refl].
  - destruct (remote.create remotePath m) as [[k m']|] eqn:Hc; simpl.
    + destruct fs as [|[code|] fs]; simpl.
      * split; [reflexivity|]. split; [reflexivity|]. right; right.
        exists data. split; [reflexivity|]. split; [reflexivity|discriminate].
      * split; [reflexivity|]. split; [reflexivity|]. right; left.
        exists code. split; [reflexivity|]. split; [discriminate|].
        apply create_persists in Hc as [Hp _]. exact Hp.
      * split; [reflexivity|]. split; [reflexivity|]. right; right.
        exists data. split; [reflexivity|]. split; [reflexivity|discriminate].
    + split; [reflexivity|]. split; [reflexivity|]. right; right.
      exists data. split; [reflexivity|]. split; [reflexivity|discriminate].
Qed.

(** ** One call of the walk function *)

Lemma Rel_error (basepath targpath : string) (e : error) :
  filepath.Rel basepath targpath = Err e → e = RelError basepath targpath.
Proof.
  unfold filepath.Rel.
  repeat match goal with
         | |- context [if ?b then _ else _] => destruct b
         | |- context [match ?o with Some _ => _ | None => _ end] => destruct o
         end; congruence.
Qed.

Lemma copyDirFn_spec (L R : string) (v : Visit) (w : World) :
  let '(w', r) := copyDirFn L R (v_path v) (v_info v) (v_err v) w in
  local_files w' = local_files w
  ∧ persists (remote_fs w) (remote_fs w')
  ∧ match task_of L R v with
    | None =>
        w' = w ∧ ∃ e, r = Some e
                      ∧ (v_err v = Some e ∨ (e ≠ SkipDir ∧ e ≠ SkipAll))
    | Some t =>
        trace w' = trace w ++ [EvBegin t; EvEnd t r]
        ∧ (∀ e, r = Some e → raw_error t e = true)
        ∧ (faults w = [] →
           faults w' = []
           ∧ (remote_fs w', r) = task_result (local_files w) t (remote_fs w))
    end.
Proof.
  destruct v as [path info err]. unfold copyDirFn, task_of. simpl.
  destruct err as [e|]; [unfold ret; eauto 8 using persists_refl|].
  destruct (filepath.Rel L path) as [relPath|e] eqn:Hrel.
  2:{ apply Rel_error in Hrel as ->. unfold ret.
      split; [reflexivity|]. split; [apply persists_refl|].
      split; [reflexivity|]. eexists; split; [reflexivity|].
      right; split; discriminate. }
  destruct info as [[isdir]|].
  2:{ unfold ret. split; [reflexivity|]. split; [apply persists_refl|].
      split; [reflexivity|]. eexists; split; [reflexivity|].
      right; split; discriminate. }
  simpl. set (dst := filepath.Join [R; relPath]).
  destruct isdir; unfold bind, emit; simpl.
  - set (w0 := mkWorld _ _ _ _ _ _ _ _).
    pose proof (RunCommand_spec (mkdir_command dst) w0) as Hrun.
    destruct (RunCommand (mkdir_command dst) w0) as [w1 [out err]]. simpl.
    destruct Hrun as (Htr & Hlf & Hcases).
    assert (Hgoal :
      local_files w1 = local_files w
      ∧ persists (remote_fs w) (remote_fs w1)
      ∧ (trace w1 ++ [EvEnd (mkTask DirCreate path dst) err]
         = trace w ++ [EvBegin (mkTask DirCreate path dst);
                       EvEnd (mkTask DirCreate path dst) err])
      ∧ (∀ e, err = Some e → raw_error (mkTask DirCreate path dst) e = true)
      ∧ (faults w = [] →
         faults w1 = []
         ∧ (remote_fs w1, err)
           = task_result (local_files w) (mkTask DirCreate path dst) (remote_fs w))).
    { split; [exact Hlf|]. rewrite Htr. subst w0; simpl in *.
      rewrite <- app_assoc. simpl.
      destruct Hcases as [(c & -> & Hf & Hm)|[Hres Hf]].
      - rewrite Hm. split; [apply persists_refl|]. split; [reflexivity|].
        split; [intros e [= <-]; reflexivity|]. intros Hnil. congruence.
      - split.
        { pose proof (exec_persists (mkdir_command dst) (remote_fs w)) as Hp.
          unfold exec_result in Hres.
          destruct (sh.exec (mkdir_command dst) (remote_fs w)) as [m' st].
          injection Hres as -> _. exact Hp. }
        split; [reflexivity|]. split.
        { intros e ->. unfold exec_result in Hres.
          destruct (sh.exec (mkdir_command dst) (remote_fs w)) as [m' [|st]];
            injection Hres as _ He; [discriminate|].
          subst e. reflexivity. }
        intros Hnil. split; [apply Hf, Hnil | exact Hres]. }
    destruct err as [e|]; unfold ret; simpl; exact Hgoal.
  - set (w0 := mkWorld _ _ _ _ _ _ _ _).
    pose proof (CopyFile_spec path dst w0) as Hrun.
    destruct (CopyFile path dst w0) as [w1 err]. simpl.
    destruct Hrun as (Htr & Hlf & Hcases).
    assert (Hgoal :
      local_files w1 = local_files w
      ∧ persists (remote_fs w) (remote_fs w1)
      ∧ (trace w1 ++ [EvEnd (mkTask FileCopy path dst) err]
         = trace w ++ [EvBegin (mkTask FileCopy path dst);
                       EvEnd (mkTask FileCopy path dst) err])
      ∧ (∀ e, err = Some e → raw_error (mkTask FileCopy path dst) e = true)
      ∧ (faults w = [] →
         faults w1 = []
         ∧ (remote_fs w1, err)
           = task_result (local_files w) (mkTask FileCopy path dst) (remote_fs w))).
    { split; [exact Hlf|]. rewrite Htr. subst w0; simpl in *.
      rewrite <- app_assoc. simpl. unfold task_result. simpl.
      destruct Hcases as [(-> & Hnone & Hm)|[(c & -> & Hf & Hp)|(data & Hd & Hres & Hf)]].
      - subst w1. simpl. rewrite Hnone.
        split; [apply persists_refl|]. split; [reflexivity|].
        split.
        { intros e [= <-]. unfold raw_error. simpl.
          rewrite String.eqb_refl. reflexivity. }
        intros Hnil. split; [exact Hnil|reflexivity].
      - split; [exact Hp|]. split; [reflexivity|].
        split; [intros e [= <-]; reflexivity|]. intros Hnil. congruence.
      - rewrite Hd. split.
        { pose proof (copy_result_persists data dst (remote_fs w)) as Hp.
          rewrite <- Hres in Hp. exact Hp. }
        split; [reflexivity|]. split.
        { intros e ->. unfold copy_result in Hres.
          destruct (remote.create dst (remote_fs w)) as [[k m']|];
            injection Hres as _ He; [discriminate|].
          subst e. reflexivity. }
        intros Hnil. split; [apply Hf, Hnil | exact Hres]. }
    destruct err as [e|]; unfold ret; simpl; exact Hgoal.
Qed.

(** ** Strings and separators *)

Lemma append_nil_l (b : string) : "" +:+ b = b.
Proof. reflexivity. Qed.

Lemma append_cons (c : ascii) (a b : string) :
  String c a +:+ b = String c (a +:+ b).
Proof. reflexivity. Qed.

Ltac sapp := rewrite ?append_cons, ?append_nil_l in *.

Lemma append_assoc (a b c : string) : (a +:+ b) +:+ c = a +:+ (b +:+ c).
Proof. induction a as [|x a IH]; sapp; [reflexivity | by rewrite IH]. Qed.

Lemma append_empty_r (a : string) : a +:+ "" = a.
Proof. induction a as [|x a IH]; sapp; [reflexivity | by rewrite IH]. Qed.

Lemma is_empty_true (s : string) : Str.is_empty s = true ↔ s = "".
Proof. destruct s; simpl; split; congruence. Qed.

Lemma split_not_nil (s : string) : Str.split s ≠ [].
Proof.
  induction s as [|c s IH]; simpl; [discriminate|].
  destruct (Str.is_slash c); [discriminate|].
  destruct (Str.split s); [congruence | discriminate].
Qed.

Lemma split_append (a b : string) :
  Str.split (a +:+ String "/" b) = Str.split a ++ Str.split b.
Proof.
  induction a as [|c a IH]; sapp; simpl; [reflexivity|].
  destruct (Str.is_slash c); [by rewrite IH|].
  rewrite IH. pose proof (split_not_nil a) as Hne.
  destruct (Str.split a) as [|x xs]; [congruence | reflexivity].
Qed.

Lemma split_plain (s : string) :
  Str.has Str.is_slash s = false → Str.split s = [s].
Proof.
  induction s as [|c s IH]; simpl; [reflexivity|].
  intros H. apply orb_false_iff in H as [Hc Hs]. rewrite Hc, (IH Hs). reflexivity.
Qed.

Lemma split_elements_plain (s : string) :
  Forall (λ e, Str.has Str.is_slash e = false) (Str.split s).
Proof.
  induction s as [|c s IH]; simpl; [repeat constructor|].
  destruct (Str.is_slash c) eqn:Hc; [constructor; [reflexivity | exact IH]|].
  destruct (Str.split s) as [|x xs]; [repeat constructor; simpl; by rewrite Hc|].
  apply Forall_cons in IH as [Hx Hxs]. constructor; [|exact Hxs].
  simpl. by rewrite Hc, Hx.
Qed.

Lemma join_cons (x y : string) (l : list string) :
  Str.join (x :: y :: l) = x +:+ String "/" (Str.join (y :: l)).
Proof. reflexivity. Qed.

Lemma join_app (a b : list string) :
  a ≠ [] → b ≠ [] → Str.join (a ++ b) = Str.join a +:+ String "/" (Str.join b).
Proof.
  intros Ha Hb. induction a as [|x a IH]; [congruence|].
  destruct a as [|y a].
  - destruct b as [|z b]; [congruence | reflexivity].
  - change ((x :: y :: a) ++ b) with (x :: (y :: a ++ b)).
    rewrite !join_cons. change (y :: a ++ b) with ((y :: a) ++ b).
    rewrite IH by discriminate. by rewrite append_assoc.
Qed.

Lemma split_join (l : list string) :
  l ≠ [] → Forall (λ e, Str.has Str.is_slash e = false) l →
  Str.split (Str.join l) = l.
Proof.
  intros Hne Hl. induction l as [|x l IH]; [congruence|].
  apply Forall_cons in Hl as [Hx Hl]. destruct l as [|y l].
  - simpl. apply split_plain, Hx.
  - rewrite join_cons, split_append, (split_plain x Hx), IH by (done || discriminate).
    reflexivity.
Qed.

Lemma head_is_append (p : ascii → bool) (a b : string) :
  a ≠ "" → Str.head_is p (a +:+ b) = Str.head_is p a.
Proof. destruct a; [congruence | reflexivity]. Qed.

Lemma head_plain (s : string) :
  Str.has Str.is_slash s = false → Str.head_is Str.is_slash s = false.
Proof. destruct s; simpl; [reflexivity|]. intros H. by apply orb_false_iff in H as [? _]. Qed.

Lemma has_append (p : ascii → bool) (a b : string) :
  Str.has p (a +:+ b) = Str.has p a || Str.has p b.
Proof.
  induction a as [|c a IH]; sapp; simpl; [reflexivity|]. by rewrite IH, orb_assoc.
Qed.

Lemma join_head (l : list string) :
  Forall solid l → Str.head_is Str.is_slash (Str.join l) = false.
Proof.
  intros Hl. destruct l as [|x l]; [reflexivity|].
  apply Forall_cons in Hl as [[Hne Hx] _].
  destruct l as [|y l]; [apply head_plain, Hx|].
  rewrite join_cons, head_is_append; [apply head_plain, Hx|].
  intros ->. discriminate.
Qed.

Lemma double_slash_append (a b : string) :
  Str.has Str.is_slash a = false → b ≠ "" →
  Str.head_is Str.is_slash b = false →
  Str.double_slash (a +:+ String "/" b) = Str.double_slash b.
Proof.
  intros Ha Hb Hh. induction a as [|c a IH].
  - sapp. simpl. destruct b as [|d b]; [congruence|]. simpl in Hh. rewrite Hh.
    reflexivity.
  - simpl in Ha. apply orb_false_iff in Ha as [Hc Ha].
    rewrite append_cons.
    cbn [Str.double_slash]. rewrite (IH Ha), Hc.
    destruct (a +:+ String "/" b) eqn:E; [destruct a; discriminate | reflexivity].
Qed.

Lemma double_slash_plain (s : string) :
  Str.has Str.is_slash s = false → Str.double_slash s = false.
Proof.
  induction s as [|c s IH]; [reflexivity|]. intros H. simpl in H.
  apply orb_false_iff in H as [Hc Hs]. cbn [Str.double_slash].
  rewrite (IH Hs), Hc. by destruct s.
Qed.

Lemma join_not_empty (l : list string) :
  l ≠ [] → Forall solid l → Str.join l ≠ "".
Proof.
  intros Hne Hl. destruct l as [|x l]; [congruence|].
  apply Forall_cons in Hl as [[Hx _] _].
  destruct x; [discriminate|]. destruct l; discriminate.
Qed.

Lemma double_slash_join (l : list string) :
  Forall solid l → Str.double_slash (Str.join l) = false.
Proof.
  induction l as [|x l IH]; intros Hl; [reflexivity|].
  apply Forall_cons in Hl as [[Hne Hx] Hl].
  destruct l as [|y l]; [apply double_slash_plain, Hx|].
  rewrite join_cons, double_slash_append; [apply IH, Hl|exact Hx| |].
  - apply join_not_empty; [discriminate | exact Hl].
  - apply join_head, Hl.
Qed.

(** ** filepath.Clean on elements *)

Lemma valid_name_spec (n : string) :
  valid_name n = true ↔
  Str.is_empty n = false ∧ Str.has Str.is_slash n = false ∧ n ≠ "." ∧ n ≠ "..".
Proof.
  unfold valid_name. rewrite !andb_true_iff, !negb_true_iff, !String.eqb_neq.
  tauto.
Qed.

Lemma valid_name_solid (n : string) : valid_name n = true → solid n.
Proof. intros H. apply valid_name_spec in H. split; tauto. Qed.

Lemma clean_step_name (rooted : bool) (stk : list string) (n : string) :
  valid_name n = true → filepath.clean_step rooted stk n = n :: stk.
Proof.
  intros H. apply valid_name_spec in H as (He & _ & Hd & Hdd).
  unfold filepath.clean_step.
  destruct (String.eqb_spec n ""); [subst; discriminate|].
  destruct (String.eqb_spec n "."); [congruence|].
  destruct (String.eqb_spec n ".."); [congruence|]. reflexivity.
Qed.

Lemma clean_step_normal (rooted : bool) (stk : list string) (e : string) :
  Str.has Str.is_slash e = false → normal rooted stk = true →
  normal rooted (filepath.clean_step rooted stk e) = true.
Proof.
  intros He Hn. unfold filepath.clean_step.
  destruct (String.eqb_spec e ""); [exact Hn|].
  destruct (String.eqb_spec e "."); [exact Hn|].
  destruct (String.eqb_spec e "..") as [->|Hdd].
  - destruct stk as [|top below].
    + destruct rooted; reflexivity.
    + cbn [normal] in Hn. destruct (String.eqb top "..") eqn:Ht.
      * cbn [normal forallb]. apply andb_true_iff in Hn as [Hr Hall].
        apply String.eqb_eq in Ht as ->. rewrite Hr, Hall. reflexivity.
      * apply andb_true_iff in Hn as [_ Hn]. exact Hn.
  - cbn [normal]. apply String.eqb_neq in Hdd. rewrite Hdd, Hn, andb_true_r.
    apply valid_name_spec. repeat split; try assumption.
    + destruct e; [congruence | reflexivity].
    + by apply String.eqb_neq.
Qed.

Lemma fold_clean_normal (rooted : bool) (es stk : list string) :
  Forall (λ e, Str.has Str.is_slash e = false) es →
  normal rooted stk = true →
  normal rooted (fold_left (filepath.clean_step rooted) es stk) = true.
Proof.
  revert stk. induction es as [|e es IH]; intros stk Hes Hn; [exact Hn|].
  apply Forall_cons in Hes as [He Hes]. simpl.
  apply IH; [exact Hes | by apply clean_step_normal].
Qed.

Lemma fold_clean_names (rooted : bool) (ns stk : list string) :
  Forall (λ n, valid_name n = true) ns →
  fold_left (filepath.clean_step rooted) ns stk = rev ns ++ stk.
Proof.
  revert stk. induction ns as [|n ns IH]; intros stk Hns; [reflexivity|].
  apply Forall_cons in Hns as [Hn Hns]. simpl.
  rewrite clean_step_name, IH, <- app_assoc by assumption. reflexivity.
Qed.

Lemma normal_solid (rooted : bool) (stk : list string) :
  normal rooted stk = true → Forall solid stk.
Proof.
  induction stk as [|e below IH]; intros Hn; [constructor|]. cbn [normal] in Hn.
  destruct (String.eqb_spec e "..") as [->|Hdd].
  - apply andb_true_iff in Hn as [_ Hall]. constructor; [by split|].
    clear IH. induction below as [|x below IH]; [constructor|].
    cbn [forallb] in Hall. apply andb_true_iff in Hall as [Hx Hall].
    apply String.eqb_eq in Hx as <-. constructor; [by split | by apply IH].
  - apply andb_true_iff in Hn as [Hv Hn].
    constructor; [by apply valid_name_solid | by apply IH].
Qed.

Lemma normal_not_dot (rooted : bool) (stk : list string) :
  normal rooted stk = true → Forall (λ e, e ≠ "." ∧ e ≠ "") stk.
Proof.
  induction stk as [|e below IH]; intros Hn; [constructor|]. cbn [normal] in Hn.
  destruct (String.eqb_spec e "..") as [->|Hdd].
  - apply andb_true_iff in Hn as [_ Hall]. constructor; [by split|].
    clear IH. induction below as [|x below IH]; [constructor|].
    cbn [forallb] in Hall. apply andb_true_iff in Hall as [Hx Hall].
    apply String.eqb_eq in Hx as <-. constructor; [by split | by apply IH].
  - apply andb_true_iff in Hn as [Hv Hn]. constructor; [|by apply IH].
    apply valid_name_spec in Hv as (He & _ & Hd & _). split; [exact Hd|].
    intros ->. discriminate.
Qed.

(** Cleaning the elements that a clean path is made of gives them back. *)
Lemma fold_clean_rev (rooted : bool) (stk : list string) :
  normal rooted stk = true →
  fold_left (filepath.clean_step rooted) (rev stk) [] = stk.
Proof.
  induction stk as [|e below IH]; intros Hn; [reflexivity|].
  simpl. rewrite fold_left_app. simpl. cbn [normal] in Hn.
  destruct (String.eqb_spec e "..") as [->|Hdd].
  - apply andb_true_iff in Hn as [Hr Hall].
    rewrite IH.
    + unfold filepath.clean_step. simpl.
      destruct below as [|top below']; [by destruct rooted|].
      cbn [forallb] in Hall. apply andb_true_iff in Hall as [Ht _].
      apply String.eqb_eq in Ht as <-. reflexivity.
    + clear IH. destruct below as [|top below']; [reflexivity|].
      cbn [forallb] in Hall. apply andb_true_iff in Hall as [Ht Hall'].
      apply String.eqb_eq in Ht as <-. cbn [normal]. rewrite String.eqb_refl.
      by rewrite Hr, Hall'.
  - apply andb_true_iff in Hn as [Hv Hn]. rewrite IH by exact Hn.
    by apply clean_step_name.
Qed.

Lemma Clean_elems (p : string) :
  filepath.Clean p = filepath.render (rooted_of p) (elems_of p).
Proof.
  unfold filepath.Clean, elems_of, rooted_of. destruct p; reflexivity.
Qed.

Lemma elems_of_normal (p : string) :
  normal (rooted_of p) (rev (elems_of p)) = true.
Proof.
  unfold elems_of. destruct (Str.is_empty p); [reflexivity|].
  unfold filepath.clean_elems. rewrite rev_involutive.
  apply fold_clean_normal; [apply split_elements_plain | reflexivity].
Qed.

Lemma Forall_rev_iff {A} (P : A → Prop) (l : list A) :
  Forall P (rev l) ↔ Forall P l.
Proof.
  rewrite !List.Forall_forall. split; intros H x Hx; apply H.
  - by apply in_rev in Hx.
  - by apply in_rev.
Qed.

Lemma normal_rev_solid (rooted : bool) (e : list string) :
  normal rooted (rev e) = true →
  Forall solid e ∧ Forall (λ x, Str.has Str.is_slash x = false) e.
Proof.
  intros Hn. apply normal_solid in Hn. apply (proj1 (Forall_rev_iff _ _)) in Hn.
  split; [exact Hn|].
  eapply Forall_impl; [exact Hn|]. by intros x [_ ?].
Qed.

Lemma clean_elems_rev (rooted : bool) (e : list string) :
  normal rooted (rev e) = true → filepath.clean_elems rooted e = e.
Proof.
  intros Hn. unfold filepath.clean_elems.
  rewrite <- (rev_involutive e) at 1. rewrite fold_clean_rev by exact Hn.
  apply rev_involutive.
Qed.

(** A rendered path is read back as the elements it was made of. *)
Lemma render_facts (rooted : bool) (e : list string) :
  normal rooted (rev e) = true →
  rooted_of (filepath.render rooted e) = rooted
  ∧ elems_of (filepath.render rooted e) = e.
Proof.
  intros Hn. pose proof (normal_rev_solid _ _ Hn) as [Hsolid Hplain].
  unfold filepath.render, elems_of, rooted_of. destruct rooted.
  - sapp. split; [reflexivity|]. cbn [Str.is_empty Str.head_is].
    change (Str.is_slash "/") with true. cbn [Str.split].
    change (Str.is_slash "/") with true. cbv iota.
    unfold filepath.clean_elems. cbn [fold_left].
    change (filepath.clean_step true [] "") with (@nil string).
    destruct e as [|x e]; [reflexivity|].
    rewrite split_join by (done || discriminate).
    by apply clean_elems_rev.
  - destruct e as [|x e]; [split; reflexivity|].
    rewrite join_head by exact Hsolid. split; [reflexivity|].
    destruct (Str.is_empty (Str.join (x :: e))) eqn:He.
    + apply is_empty_true in He.
      by apply join_not_empty in He.
    + rewrite split_join by (done || discriminate).
      by apply clean_elems_rev.
Qed.

Lemma Clean_render (rooted : bool) (e : list string) :
  normal rooted (rev e) = true →
  filepath.Clean (filepath.render rooted e) = filepath.render rooted e.
Proof.
  intros Hn. rewrite Clean_elems.
  destruct (render_facts rooted e Hn) as [-> ->]. reflexivity.
Qed.

Lemma Clean_idempotent (p : string) :
  filepath.Clean (filepath.Clean p) = filepath.Clean p.
Proof. rewrite (Clean_elems p). apply Clean_render, elems_of_normal. Qed.

Lemma normal_push (rooted : bool) (stk : list string) (n : string) :
  valid_name n = true → normal rooted stk = true →
  normal rooted (n :: stk) = true.
Proof.
  intros Hn Hs. cbn [normal]. rewrite Hn, Hs.
  apply valid_name_spec in Hn as (_ & _ & _ & Hdd).
  apply String.eqb_neq in Hdd. by rewrite Hdd.
Qed.

Lemma normal_snoc (rooted : bool) (e ns : list string) :
  normal rooted (rev e) = true → Forall (λ n, valid_name n = true) ns →
  normal rooted (rev (e ++ ns)) = true.
Proof.
  intros He Hns. rewrite rev_app_distr. revert He. generalize (rev e) as stk.
  induction Hns as [|n ns Hn _ IH]; intros stk Hs; [exact Hs|].
  simpl. rewrite <- app_assoc. simpl. apply IH. by apply normal_push.
Qed.

(** [Join] of a path and names below it, on elements. *)
Lemma Clean_names (p : string) (ns : list string) :
  p ≠ "" → Forall (λ n, valid_name n = true) ns → ns ≠ [] →
  filepath.Clean (p +:+ String "/" (Str.join ns))
  = filepath.render (rooted_of p) (elems_of p ++ ns).
Proof.
  intros Hp Hns Hne. unfold filepath.Clean, elems_of.
  assert (Hplain : Forall (λ e, Str.has Str.is_slash e = false) ns).
  { eapply Forall_impl; [exact Hns|]. intros n Hn.
    by apply valid_name_solid in Hn as [_ ?]. }
  destruct p as [|c p]; [congruence|]. sapp. cbn [Str.is_empty Str.head_is].
  rewrite <- append_cons, split_append, split_join by assumption.
  unfold filepath.clean_elems, rooted_of. cbn [Str.head_is].
  rewrite fold_left_app, fold_clean_names, rev_app_distr, rev_involutive
    by exact Hns.
  reflexivity.
Qed.

Lemma Join_names (p : string) (ns : list string) :
  Forall (λ n, valid_name n = true) ns →
  filepath.Join [p; rel_of ns]
  = filepath.render (rooted_of p) (elems_of p ++ ns).
Proof.
  intros Hns. unfold filepath.Join.
  destruct ns as [|n ns].
  - rewrite app_nil_r. destruct p as [|c p]; [reflexivity|].
    cbn [Str.is_empty rel_of]. rewrite <- Clean_elems.
    unfold filepath.Clean, Str.join. cbn [String.concat Str.is_empty].
    sapp. cbn [Str.is_empty Str.head_is].
    rewrite <- append_cons, split_append.
    unfold filepath.clean_elems. rewrite fold_left_app. reflexivity.
  - assert (Hj : Str.join (n :: ns) ≠ "").
    { apply join_not_empty; [discriminate|].
      eapply Forall_impl; [exact Hns|]. apply valid_name_solid. }
    cbn [rel_of]. destruct p as [|c p].
    + cbn [Str.is_empty]. destruct (Str.is_empty (Str.join (n :: ns))) eqn:He;
        [by apply is_empty_true in He|].
      change (Str.join [Str.join (n :: ns)]) with (Str.join (n :: ns)).
      rewrite Clean_elems.
      assert (Hnorm : normal false (rev (n :: ns)) = true).
      { apply (normal_snoc false [] (n :: ns)); [reflexivity | exact Hns]. }
      destruct (render_facts false (n :: ns) Hnorm) as [Hr He'].
      cbn [filepath.render] in Hr, He'. rewrite Hr, He'. reflexivity.
    + cbn [Str.is_empty].
      change (Str.join [String c p; Str.join (n :: ns)])
        with (String c p +:+ String "/" (Str.join (n :: ns))).
      apply Clean_names; [discriminate | exact Hns | discriminate].
Qed.

Lemma Join_name (p n : string) :
  valid_name n = true →
  filepath.Join [p; n] = filepath.render (rooted_of p) (elems_of p ++ [n]).
Proof.
  intros Hn. apply (Join_names p [n]). by constructor.
Qed.

Lemma walk_path_render (L : string) (ns : list string) :
  Forall (λ n, valid_name n = true) ns → ns ≠ [] →
  walk_path L ns = filepath.render (rooted_of L) (elems_of L ++ ns).
Proof.
  revert L. induction ns as [|n ns IH]; intros L Hns Hne; [congruence|].
  apply Forall_cons in Hns as [Hn Hns]. unfold walk_path. cbn [fold_left].
  fold (walk_path (filepath.Join [L; n]) ns).
  destruct ns as [|n' ns]; [by apply Join_name|].
  rewrite IH by (done || discriminate). rewrite (Join_name L n Hn).
  assert (Hnorm : normal (rooted_of L) (rev (elems_of L ++ [n])) = true).
  { apply normal_snoc; [apply elems_of_normal | by constructor]. }
  destruct (render_facts _ _ Hnorm) as [-> ->].
  by rewrite <- app_assoc.
Qed.

(** ** filepath.Rel below the root of the walk *)

Lemma rel_walk_app (a ns : list string) :
  filepath.rel_walk a (a ++ ns) = Some ns.
Proof.
  induction a as [|x a IH]; [by destruct ns|].
  cbn [filepath.rel_walk app]. by rewrite String.eqb_refl.
Qed.

Lemma rev_solid_head (l : list string) :
  l ≠ [] → Forall solid l →
  ∃ e before, rev l = e :: before ∧ Str.is_empty e = false.
Proof.
  intros Hne Hl. destruct (rev l) as [|e before] eqn:Hrev.
  - apply (f_equal (@rev string)) in Hrev. rewrite rev_involutive in Hrev.
    cbn in Hrev. congruence.
  - exists e, before. split; [reflexivity|].
    apply (proj2 (Forall_rev_iff _ _)) in Hl. rewrite Hrev in Hl.
    by apply Forall_cons in Hl as [[? _] _].
Qed.

Lemma solid_plain (l : list string) :
  Forall solid l → Forall (λ e, Str.has Str.is_slash e = false) l.
Proof. intros H. eapply Forall_impl; [exact H|]. by intros x [_ ?]. Qed.

Lemma rel_elements_join (l : list string) :
  l ≠ [] → Forall solid l → filepath.rel_elements (Str.join l) = l.
Proof.
  intros Hne Hl. unfold filepath.rel_elements.
  rewrite split_join by (done || by apply solid_plain).
  destruct (rev_solid_head l Hne Hl) as (e & before & -> & ->). reflexivity.
Qed.

Lemma rel_elements_rooted (l : list string) :
  l ≠ [] → Forall solid l →
  filepath.rel_elements (String "/" (Str.join l)) = "" :: l.
Proof.
  intros Hne Hl. unfold filepath.rel_elements. cbn [Str.split].
  change (Str.is_slash "/") with true. cbv iota.
  rewrite split_join by (done || by apply solid_plain).
  cbn [rev]. destruct (rev_solid_head l Hne Hl) as (e & before & -> & He).
  cbn [app]. rewrite He. reflexivity.
Qed.

Lemma render_inj (rooted : bool) (e e' : list string) :
  normal rooted (rev e) = true → normal rooted (rev e') = true →
  filepath.render rooted e = filepath.render rooted e' → e = e'.
Proof.
  intros He He' Heq.
  destruct (render_facts rooted e He) as [_ <-].
  destruct (render_facts rooted e' He') as [_ <-]. by rewrite Heq.
Qed.

Lemma Rel_root (L : string) : filepath.Rel L L = Ok ".".
Proof. unfold filepath.Rel. by rewrite String.eqb_refl. Qed.

Lemma Rel_names (L : string) (ns : list string) :
  Forall (λ n, valid_name n = true) ns → ns ≠ [] →
  filepath.Rel L (walk_path L ns) = Ok (Str.join ns).
Proof.
  intros Hns Hne. rewrite walk_path_render by assumption.
  pose proof (elems_of_normal L) as HnL.
  pose proof (normal_snoc _ _ ns HnL Hns) as HnT.
  unfold filepath.Rel. rewrite (Clean_render _ _ HnT), (Clean_elems L).
  set (r := rooted_of L) in *. set (e := elems_of L) in *.
  destruct (String.eqb_spec (filepath.render r (e ++ ns)) (filepath.render r e))
    as [Heq|_].
  { apply render_inj in Heq; [|assumption..].
    rewrite <- (app_nil_r e) in Heq at 2. apply app_inv_head in Heq. congruence. }
  pose proof (normal_rev_solid _ _ HnL) as [HsL _].
  pose proof (normal_rev_solid _ _ HnT) as [HsT _].
  assert (Hsns : Forall solid ns).
  { eapply Forall_impl; [exact Hns|]. apply valid_name_solid. }
  destruct r; unfold filepath.render.
  - sapp. destruct (String.eqb_spec (String "/" (Str.join e)) ".") as [?|_];
      [discriminate|].
    cbn [Str.head_is]. change (Str.is_slash "/") with true. cbn [Bool.eqb negb].
    rewrite (rel_elements_rooted (e ++ ns)) by (done || by destruct e).
    destruct e as [|x e].
    + cbn [app]. change (filepath.rel_elements (String "/" (Str.join [])))
        with [""]. cbn [filepath.rel_walk]. rewrite String.eqb_refl.
      by destruct ns.
    + rewrite rel_elements_rooted by (done || discriminate).
      change ("" :: (x :: e) ++ ns) with (("" :: x :: e) ++ ns).
      by rewrite rel_walk_app.
  - destruct e as [|x e].
    + cbn [app]. destruct ns as [|n ns]; [congruence|].
      change (String.eqb "." ".") with true. cbv iota.
      rewrite join_head by exact Hsns. cbn [Str.head_is Bool.eqb negb].
      rewrite rel_elements_join by (done || discriminate).
      reflexivity.
    + destruct (String.eqb_spec (Str.join (x :: e)) ".") as [Hdot|_].
      { apply (f_equal Str.split) in Hdot.
        rewrite split_join in Hdot by (discriminate || by apply solid_plain).
        apply normal_not_dot in HnL.
        apply (proj1 (Forall_rev_iff _ _)) in HnL.
        apply Forall_cons in HnL as [[Hx _] _]. cbn in Hdot. congruence. }
      cbn [app] in *.
      rewrite !join_head by assumption. cbn [Bool.eqb negb].
      rewrite !rel_elements_join by (done || discriminate).
      change (x :: e ++ ns) with ((x :: e) ++ ns).
      by rewrite rel_walk_app.
Qed.

Lemma Rel_walk_path (L : string) (ns : list string) :
  Forall (λ n, valid_name n = true) ns →
  filepath.Rel L (walk_path L ns) = Ok (rel_of ns).
Proof.
  intros Hns. destruct ns as [|n ns]; [apply Rel_root|].
  by apply Rel_names.
Qed.

Lemma rel_of_inj (ns ns' : list string) :
  Forall (λ n, valid_name n = true) ns →
  Forall (λ n, valid_name n = true) ns' →
  rel_of ns = rel_of ns' → ns = ns'.
Proof.
  intros Hns Hns' Heq.
  assert (Hdot : ∀ l, Forall (λ n, valid_name n = true) l → l ≠ [] →
                      Str.join l ≠ ".").
  { intros l Hl Hne Hj. apply (f_equal Str.split) in Hj.
    rewrite split_join in Hj; [|exact Hne|].
    - cbn in Hj. subst l. apply Forall_cons in Hl as [Hl _]. discriminate.
    - eapply Forall_impl; [exact Hl|]. intros n Hn.
      by apply valid_name_solid in Hn as [_ ?]. }
  assert (Hplain : ∀ l, Forall (λ n, valid_name n = true) l →
                        Forall (λ e, Str.has Str.is_slash e = false) l).
  { intros l Hl. eapply Forall_impl; [exact Hl|]. intros n Hn.
    by apply valid_name_solid in Hn as [_ ?]. }
  destruct ns as [|n ns], ns' as [|n' ns']; cbn [rel_of] in Heq.
  - reflexivity.
  - symmetry in Heq. by apply Hdot in Heq.
  - by apply Hdot in Heq.
  - apply (f_equal Str.split) in Heq.
    by rewrite !split_join in Heq by (discriminate || by apply Hplain).
Qed.

Lemma walk_path_inj (L : string) (ns ns' : list string) :
  Forall (λ n, valid_name n = true) ns →
  Forall (λ n, valid_name n = true) ns' →
  walk_path L ns = walk_path L ns' → ns = ns'.
Proof.
  intros Hns Hns' Heq. apply rel_of_inj; try assumption.
  pose proof (Rel_walk_path L ns Hns) as H1.
  pose proof (Rel_walk_path L ns' Hns') as H2.
  rewrite Heq in H1. congruence.
Qed.

(** ** CopyDir is a sequential run over the pre-order list *)

Lemma raw_error_plain (t : Task) (e : error) :
  raw_error t e = true → e ≠ SkipDir ∧ e ≠ SkipAll.
Proof. intros H. split; intros ->; destruct t as [[] l r]; discriminate. Qed.

Lemma copyDirFn_stops (L R path : string) (info : option FileInfo)
    (e : error) (w : World) :
  snd (copyDirFn L R path info (Some e) w) ≠ None.
Proof. simpl. discriminate. Qed.

Lemma copyDirFn_plain (L R path : string) (info : option FileInfo)
    (err : option error) (w : World) :
  plain_error err → plain_error (snd (copyDirFn L R path info err w)).
Proof.
  intros Hp. pose proof (copyDirFn_spec L R (mkVisit path info err) w) as H.
  cbn [v_path v_info v_err] in H.
  destruct (copyDirFn L R path info err w) as [w' r]. cbn [snd].
  destruct H as (_ & _ & H).
  destruct (task_of L R _) as [t|].
  - destruct H as (_ & Hraw & _). destruct r as [e|]; [|split; discriminate].
    destruct (raw_error_plain t e (Hraw e eq_refl)). split; congruence.
  - destruct H as (_ & e & -> & [->|[H1 H2]]); [exact Hp | split; congruence].
Qed.

Lemma CopyDir_visit_all (L R : string) (tree : fsnode) (w : World) :
  CopyDir L R tree w = visit_all (copyDirFn L R) (preorder L tree) w.
Proof.
  apply Walk_visit_all; [apply copyDirFn_stops | apply copyDirFn_plain].
Qed.

Lemma visit_all_seq (L R : string) (vs : list Visit) (w : World) :
  let '(w', r) := visit_all (copyDirFn L R) vs w in
  local_files w' = local_files w
  ∧ persists (remote_fs w) (remote_fs w')
  ∧ ∃ evs, trace w' = trace w ++ evs ∧ seq_trace (task_of L R) vs evs r.
Proof.
  revert w. induction vs as [|v vs IH]; intros w; cbn [visit_all].
  - unfold ret. split; [reflexivity|]. split; [apply persists_refl|].
    exists []. split; [by rewrite app_nil_r | constructor].
  - unfold bind. pose proof (copyDirFn_spec L R v w) as Hv.
    destruct (copyDirFn L R (v_path v) (v_info v) (v_err v) w) as [w1 r1].
    destruct Hv as (Hlf & Hp & Hv).
    destruct (task_of L R v) as [t|] eqn:Ht.
    + destruct Hv as (Htr & Hraw & _). destruct r1 as [e|].
      * unfold ret. split; [exact Hlf|]. split; [exact Hp|].
        eexists. split; [exact Htr|]. apply seq_failed; [exact Ht | by apply Hraw].
      * specialize (IH w1). destruct (visit_all (copyDirFn L R) vs w1) as [w' r].
        destruct IH as (Hlf' & Hp' & evs & Htr' & Hseq).
        split; [congruence|]. split; [by eapply persists_trans|].
        exists (EvBegin t :: EvEnd t None :: evs). split.
        -- rewrite Htr', Htr, <- app_assoc. reflexivity.
        -- by apply seq_next.
    + destruct Hv as (-> & e & -> & _). unfold ret.
      split; [reflexivity|]. split; [apply persists_refl|].
      exists []. split; [by rewrite app_nil_r | by apply seq_refused].
Qed.

Lemma visit_all_first_error (fn : WalkFunc) (vs : list Visit)
    (w w' : World) (e : error) :
  visit_all fn vs w = (w', Some e) →
  ∃ done v rest wk,
    vs = done ++ v :: rest
    ∧ visit_all fn done w = (wk, None)
    ∧ fn (v_path v) (v_info v) (v_err v) wk = (w', Some e).
Proof.
  revert w. induction vs as [|v vs IH]; intros w; cbn [visit_all].
  - unfold ret. congruence.
  - unfold bind. destruct (fn (v_path v) (v_info v) (v_err v) w) as [w1 [e1|]] eqn:Hv.
    + unfold ret. intros [= <- <-]. by exists [], v, vs, w.
    + intros H. apply IH in H as (done & v' & rest & wk & -> & Hdone & Hfail).
      exists (v :: done), v', rest, wk. split; [reflexivity|]. split; [|exact Hfail].
      cbn [visit_all]. unfold bind. rewrite Hv. exact Hdone.
Qed.

Lemma CopyDir_error_has_cause
    (L R : string) (tree : fsnode) (w w' : World) (e : error) :
  CopyDir L R tree w = (w', Some e) →
  ∃ done v rest wk,
    preorder L tree = done ++ v :: rest
    ∧ visit_all (copyDirFn L R) done w = (wk, None)
    ∧ copyDirFn L R (v_path v) (v_info v) (v_err v) wk = (w', Some e).
Proof. rewrite CopyDir_visit_all. apply visit_all_first_error. Qed.

(** ** The entries of the tree and their order *)

Lemma preorder_entries (n : fsnode) :
  ∀ path, preorder path n = map (visit_of path) (entries_of n).
Proof.
  induction n as [errno| |rderr entries IH] using fsnode_ind'; intros path;
    try reflexivity.
  cbn [preorder entries_of map]. f_equal.
  destruct rderr as [errno|]; [reflexivity|].
  induction IH as [|[name child] entries Hc _ IHes]; [reflexivity|].
  rewrite map_app, map_map, IHes, Hc. reflexivity.
Qed.

Lemma entries_valid (n : fsnode) :
  wf_tree n = true →
  Forall (λ e, Forall (λ x, valid_name x = true) (fst e)) (entries_of n).
Proof.
  induction n as [errno| |rderr entries IH] using fsnode_ind'; intros Hwf;
    try (by repeat constructor).
  cbn [entries_of]. constructor; [constructor|].
  destruct rderr as [errno|]; [constructor|]. cbn [wf_tree] in Hwf.
  induction IH as [|[name child] entries Hc _ IHes]; [constructor|].
  apply andb_true_iff in Hwf as [Hwf Hrest].
  apply andb_true_iff in Hwf as [Hname Hchild].
  apply Forall_app. split; [|by apply IHes].
  apply Forall_map. eapply Forall_impl; [by apply Hc|].
  intros [ns x] Hns. by constructor.
Qed.

(** Above every entry, each directory on the way to it comes earlier in
    the list, and its names could be read. *)
Lemma entries_parent_before (n : fsnode) :
  ∀ l1 l2 ds name more x,
    entries_of n = l1 ++ (ds ++ name :: more, x) :: l2 →
    ∃ entries, In (ds, Directory None entries) l1.
Proof.
  induction n as [errno| |rderr entries IH] using fsnode_ind';
    intros l1 l2 ds name more x Heq.
  - destruct l1 as [|a [|b l1]], ds; cbn in Heq; congruence.
  - destruct l1 as [|a [|b l1]], ds; cbn in Heq; congruence.
  - cbn [entries_of] in Heq.
    destruct l1 as [|a l1]; [destruct ds; cbn in Heq; congruence|].
    cbn [app] in Heq. injection Heq as <- Heq.
    destruct rderr as [errno|]; [destruct l1; cbn in Heq; congruence|].
    destruct ds as [|d ds]; [by exists entries; left|].
    cut (∃ es, In (d :: ds, Directory None es) l1).
    { intros [es Hes]. exists es. by right. }
    clear -IH Heq. revert l1 Heq.
    induction IH as [|[cname child] entries Hc _ IHes]; intros l1 Heq.
    + destruct l1; cbn in Heq; congruence.
    + cbn [snd] in Hc.
      apply app_eq_app in Heq as [l [[Hl1 Hl2]|[Hl1 Hl2]]].
      * destruct l as [|b l].
        -- (* the entry is the first of a later child *)
           cbn [app] in Hl2. symmetry in Hl2.
           destruct (IHes [] Hl2) as [es []].
        -- (* the entry lies below this child *)
           cbn [app] in Hl2. injection Hl2 as <- _.
           apply map_eq_app in Hl1 as (la & lb & Hsplit & <- & Hlb).
           destruct lb as [|[ns y] lb]; [discriminate|].
           cbn [map fst snd] in Hlb.
           assert (Hd : cname = d) by congruence.
           assert (Hns : ns = ds ++ name :: more) by congruence.
           subst cname ns.
           destruct (Hc la lb ds name more y Hsplit) as [es Hes].
           exists es.
           apply (in_map (λ e : list string * fsnode, (d :: e.1, e.2))) in Hes.
           exact Hes.
      * (* the entry lies below a later child *)
        destruct (IHes l Hl2) as [es Hes].
        exists es. subst l1. apply in_or_app. by right.
Qed.

(** ** Traces of a sequential run *)

Lemma seq_trace_before (task : Visit → option Task) (vs : list Visit)
    (evs : list Event) (r : option error) :
  seq_trace task vs evs r →
  ∀ pre t post, evs = pre ++ EvBegin t :: post →
    ∃ l1 v l2, vs = l1 ++ v :: l2 ∧ task v = Some t
      ∧ ∀ v', In v' l1 → ∃ t', task v' = Some t' ∧ In (EvEnd t' None) pre.
Proof.
  induction 1 as [|v vs e Hv|v vs t0 e Hv Hraw|v vs t0 evs r Hv Hseq IH];
    intros pre t post Heq.
  - destruct pre; discriminate.
  - destruct pre; discriminate.
  - destruct pre as [|a [|b [|c pre]]]; cbn in Heq; try discriminate.
    injection Heq as <- _. exists [], v, vs. split; [reflexivity|].
    split; [exact Hv|]. intros v' [].
  - destruct pre as [|a [|b pre]]; cbn in Heq; try discriminate.
    + injection Heq as <- _. exists [], v, vs. split; [reflexivity|].
      split; [exact Hv|]. intros v' [].
    + injection Heq as <- <- Heq.
      destruct (IH pre t post Heq) as (l1 & v1 & l2 & -> & Ht & Hbefore).
      exists (v :: l1), v1, l2. split; [reflexivity|]. split; [exact Ht|].
      intros v' [<-|Hin].
      * exists t0. split; [exact Hv|]. right; left; reflexivity.
      * destruct (Hbefore v' Hin) as (t' & Ht' & Hpre).
        exists t'. split; [exact Ht'|]. by right; right.
Qed.

Lemma seq_trace_last (task : Visit → option Task) (vs : list Visit)
    (evs : list Event) (r : option error) :
  seq_trace task vs evs r →
  ∀ t e, last evs = Some (EvEnd t (Some e)) →
    r = Some e ∧ raw_error t e = true.
Proof.
  induction 1 as [|v vs e0 Hv|v vs t0 e0 Hv Hraw|v vs t0 evs r Hv Hseq IH];
    intros t e Hlast; cbn in Hlast; try discriminate.
  - injection Hlast as <- <-. by split.
  - destruct evs as [|a evs]; [discriminate|]. by apply IH.
Qed.

Lemma seq_trace_peak (task : Visit → option Task) (vs : list Visit)
    (evs : list Event) (r : option error) :
  seq_trace task vs evs r → peak_in_flight 0 evs ≤ 1.
Proof.
  induction 1 as [|v vs e0 Hv|v vs t0 e0 Hv Hraw|v vs t0 evs r Hv Hseq IH];
    cbn [peak_in_flight flight_step]; try lia.
  - destruct (task_kind t0); cbn; lia.
  - destruct (task_kind t0); cbn [Nat.pred]; lia.
Qed.

(** The task of an entry of the tree. *)
Lemma task_of_visit (L R : string) (ns : list string) (x : fsnode) (t : Task) :
  Forall (λ n, valid_name n = true) ns →
  task_of L R (visit_of L (ns, x)) = Some t →
  t = mkTask (match x with Regular => FileCopy | _ => DirCreate end)
             (walk_path L ns) (filepath.Join [R; rel_of ns])
  ∧ (x = Regular ∨ ∃ entries, x = Directory None entries).
Proof.
  intros Hns. unfold task_of, visit_of. cbn [fst snd].
  destruct x as [errno| |[errno|] entries]; cbn [v_err v_path v_info fmap option_fmap option_map];
    try discriminate; rewrite (Rel_walk_path L ns Hns); intros [= <-];
    (split; [reflexivity | eauto]).
Qed.

Lemma CopyDir_seq (L R : string) (tree : fsnode) (w w' : World)
    (r : option error) (evs : list Event) :
  CopyDir L R tree w = (w', r) → trace w' = trace w ++ evs →
  seq_trace (task_of L R) (map (visit_of L) (entries_of tree)) evs r.
Proof.
  rewrite CopyDir_visit_all, preorder_entries. intros Hrun Htr.
  pose proof (visit_all_seq L R (map (visit_of L) (entries_of tree)) w) as Hs.
  rewrite Hrun in Hs. destruct Hs as (_ & _ & evs' & Htr' & Hseq).
  rewrite Htr in Htr'. apply app_inv_head in Htr'. by subst evs'.
Qed.

(** C2: in every run of [CopyDir] over a tree of well-formed names, when
    the task of an entry below a directory is begun, the directory-create
    task of that directory has already ended without error. *)
Theorem parents_before_children
    (L R : string) (tree : fsnode) (w w' : World) (r : option error)
    (ds : list string) (name : string) (more : list string) (x : fsnode)
    (pre post : list Event) (t : Task) :
  wf_tree tree = true →
  CopyDir L R tree w = (w', r) →
  In (ds ++ name :: more, x) (entries_of tree) →
  trace w' = trace w ++ (pre ++ EvBegin t :: post) →
  task_local t = walk_path L (ds ++ name :: more) →
  In (EvEnd (mkTask DirCreate (walk_path L ds) (filepath.Join [R; rel_of ds])) None)
     pre.
Proof.
  intros Hwf Hrun Hin Htr Hlocal.
  pose proof (CopyDir_seq _ _ _ _ _ _ _ Hrun Htr) as Hseq.
  pose proof (entries_valid tree Hwf) as Hvalid.
  rewrite List.Forall_forall in Hvalid.
  destruct (seq_trace_before _ _ _ _ Hseq pre t post eq_refl)
    as (l1 & v & l2 & Hsplit & Ht & Hbefore).
  apply map_eq_app in Hsplit as (e1 & e2 & Hent & <- & He2).
  destruct e2 as [|[ms y] e2]; [discriminate|]. cbn [map] in He2.
  injection He2 as <- _.
  assert (Hms : Forall (λ n, valid_name n = true) ms).
  { apply (Hvalid (ms, y)). rewrite Hent. apply in_or_app. right; by left. }
  destruct (task_of_visit L R ms y t Hms Ht) as [-> _].
  cbn [task_local] in Hlocal.
  apply walk_path_inj in Hlocal; [|exact Hms|exact (Hvalid _ Hin)]. subst ms.
  destruct (entries_parent_before tree e1 e2 ds name more y Hent) as [es Hes].
  destruct (Hbefore (visit_of L (ds, Directory None es))) as (t' & Ht' & Hpre).
  { by apply in_map. }
  assert (Hds : Forall (λ n, valid_name n = true) ds).
  { apply (Hvalid (ds, Directory None es)). rewrite Hent.
    apply in_or_app. by left. }
  by destruct (task_of_visit L R ds _ t' Hds Ht') as [-> _].
Qed.

Lemma parents_before_children_witness :
  In (EvEnd (mkTask DirCreate "L/a/b" "R/a/b") None)
     [EvBegin (mkTask DirCreate "L" "R"); EvEnd (mkTask DirCreate "L" "R") None;
      EvBegin (mkTask DirCreate "L/a" "R/a");
      EvEnd (mkTask DirCreate "L/a" "R/a") None;
      EvBegin (mkTask DirCreate "L/a/b" "R/a/b");
      EvEnd (mkTask DirCreate "L/a/b" "R/a/b") None].
Proof.
  apply (parents_before_children "L" "R" tree_abc
           (with_files files_abc empty_world)
           (fst (CopyDir "L" "R" tree_abc (with_files files_abc empty_world)))
           None ["a"; "b"] "c.txt" [] Regular _
           [EvEnd (mkTask FileCopy "L/a/b/c.txt" "R/a/b/c.txt") None]
           (mkTask FileCopy "L/a/b/c.txt" "R/a/b/c.txt")).
  - reflexivity.
  - vm_compute. reflexivity.
  - vm_compute. tauto.
  - vm_compute. reflexivity.
  - vm_compute. reflexivity.
Defined.

(** ** Remote destinations *)

Lemma render_app (rooted : bool) (e ns : list string) :
  e ≠ [] → ns ≠ [] →
  filepath.render rooted (e ++ ns)
  = filepath.render rooted e +:+ String "/" (Str.join ns).
Proof.
  intros He Hns. unfold filepath.render. destruct rooted.
  - by rewrite join_app, append_assoc.
  - destruct e as [|x e]; [congruence|]. cbn [app].
    change (x :: e ++ ns) with ((x :: e) ++ ns). by rewrite join_app.
Qed.

Lemma double_slash_render (rooted : bool) (e : list string) :
  Forall solid e → Str.double_slash (filepath.render rooted e) = false.
Proof.
  intros He. unfold filepath.render. destruct rooted.
  - sapp. cbn [Str.double_slash].
    pose proof (join_head e He) as Hh. rewrite (double_slash_join e He).
    destruct (Str.join e) as [|d s]; [reflexivity|]. cbn in Hh. by rewrite Hh.
  - destruct e as [|x e]; [reflexivity | by apply double_slash_join].
Qed.

Lemma Join_clean_root (R : string) (ns : list string) :
  Forall (λ n, valid_name n = true) ns → ns ≠ [] →
  filepath.Clean R = R → R ≠ "/" → R ≠ "." →
  filepath.Join [R; rel_of ns] = R +:+ "/" +:+ Str.join ns.
Proof.
  intros Hns Hne Hclean Hroot Hdot. rewrite (Join_names R ns Hns).
  rewrite Clean_elems in Hclean.
  destruct (elems_of R) as [|x e] eqn:He.
  - unfold filepath.render in Hclean.
    destruct (rooted_of R); symmetry in Hclean; contradiction.
  - rewrite render_app by (done || discriminate). rewrite Hclean.
    sapp. reflexivity.
Qed.

(** C3: in every run of [CopyDir] over a tree of well-formed names, each
    task belongs to an entry of the tree; its remote path is the remote
    root joined with the path of the entry relative to the local root,
    holds no doubled separator, and under a cleaned remote root other
    than ["/"] and ["."] it is the root, one separator, and the names of
    the entry separated by single separators. *)
Theorem remote_path_mapping
    (L R : string) (tree : fsnode) (w w' : World) (r : option error)
    (evs : list Event) (t : Task) :
  wf_tree tree = true →
  CopyDir L R tree w = (w', r) →
  trace w' = trace w ++ evs →
  In (EvBegin t) evs →
  ∃ ns x,
    In (ns, x) (entries_of tree)
    ∧ task_local t = walk_path L ns
    ∧ filepath.Rel L (task_local t) = Ok (rel_of ns)
    ∧ task_remote t = filepath.Join [R; rel_of ns]
    ∧ Str.double_slash (task_remote t) = false
    ∧ (filepath.Clean R = R → R ≠ "/" → R ≠ "." → ns ≠ [] →
       task_remote t = R +:+ "/" +:+ Str.join ns).
Proof.
  intros Hwf Hrun Htr Hin.
  pose proof (CopyDir_seq _ _ _ _ _ _ _ Hrun Htr) as Hseq.
  pose proof (entries_valid tree Hwf) as Hvalid.
  rewrite List.Forall_forall in Hvalid.
  apply in_split in Hin as (pre & post & ->).
  destruct (seq_trace_before _ _ _ _ Hseq pre t post eq_refl)
    as (l1 & v & l2 & Hsplit & Ht & _).
  apply map_eq_app in Hsplit as (e1 & e2 & Hent & <- & He2).
  destruct e2 as [|[ns x] e2]; [discriminate|]. cbn [map] in He2.
  injection He2 as <- _.
  assert (Hentry : In (ns, x) (entries_of tree)).
  { rewrite Hent. apply in_or_app. right; by left. }
  pose proof (Hvalid _ Hentry) as Hns. cbn [fst] in Hns.
  destruct (task_of_visit L R ns x t Hns Ht) as [-> _]. cbn [task_local task_remote].
  exists ns, x. split; [exact Hentry|]. split; [reflexivity|].
  split; [by apply Rel_walk_path|]. split; [reflexivity|]. split.
  - rewrite (Join_names R ns Hns). apply double_slash_render.
    apply (normal_rev_solid (rooted_of R)).
    apply normal_snoc; [apply elems_of_normal | exact Hns].
  - intros Hclean Hroot Hdot Hne. by apply Join_clean_root.
Qed.

Lemma remote_path_mapping_witness :
  ∃ ns x,
    In (ns, x) (entries_of tree_abc)
    ∧ "L/a/b/c.txt" = walk_path "L" ns
    ∧ filepath.Rel "L" "L/a/b/c.txt" = Ok (rel_of ns)
    ∧ "R/a/b/c.txt" = filepath.Join ["R"; rel_of ns]
    ∧ Str.double_slash "R/a/b/c.txt" = false
    ∧ (filepath.Clean "R" = "R" → "R" ≠ "/" → "R" ≠ "." → ns ≠ [] →
       "R/a/b/c.txt" = "R" +:+ "/" +:+ Str.join ns).
Proof.
  apply (remote_path_mapping "L" "R" tree_abc
           (with_files files_abc empty_world)
           (fst (CopyDir "L" "R" tree_abc (with_files files_abc empty_world)))
           None
           (trace (fst (CopyDir "L" "R" tree_abc (with_files files_abc empty_world))))
           (mkTask FileCopy "L/a/b/c.txt" "R/a/b/c.txt")).
  - reflexivity.
  - vm_compute. reflexivity.
  - vm_compute. reflexivity.
  - vm_compute. tauto.
Defined.

(** ** Errors of a run *)

(** C7, as the code has it: when a run of [CopyDir] ends in a task that
    failed, the error [CopyDir] returns is the error of that task as the
    collaborator produced it: a transport or exit error of the remote
    command, or the open, transport or status error of the copy. *)
Theorem CopyDir_returns_raw_error
    (L R : string) (tree : fsnode) (w w' : World) (r : option error)
    (evs : list Event) (t : Task) (e : error) :
  CopyDir L R tree w = (w', r) →
  trace w' = trace w ++ evs →
  last evs = Some (EvEnd t (Some e)) →
  r = Some e ∧ raw_error t e = true.
Proof.
  intros Hrun Htr Hlast.
  pose proof (CopyDir_seq _ _ _ _ _ _ _ Hrun Htr) as Hseq.
  by eapply seq_trace_last.
Qed.

Lemma CopyDir_returns_raw_error_witness :
  Some (ExitError 1) = Some (ExitError 1)
  ∧ raw_error (mkTask DirCreate "L/b" "/r/b") (ExitError 1) = true.
Proof.
  apply (CopyDir_returns_raw_error "L" "/r" tree_two_dirs
           (world_file_at "/r/b")
           (fst (CopyDir "L" "/r" tree_two_dirs (world_file_at "/r/b")))
           (Some (ExitError 1))
           (trace (fst (CopyDir "L" "/r" tree_two_dirs (world_file_at "/r/b"))))).
  - vm_compute. reflexivity.
  - vm_compute. reflexivity.
  - vm_compute. reflexivity.
Defined.

(** C7, counterexample: the same tree fails at the directory [a] in one
    world and at the directory [b] in another, and [CopyDir] returns the
    same error both times; no function of the returned error gives the
    task that failed. *)
Lemma CopyDir_error_names_no_task :
  ¬ ∃ identify : error → Task,
      ∀ w w' e t,
        CopyDir "L" "/r" tree_two_dirs w = (w', Some e) →
        last (trace w') = Some (EvEnd t (Some e)) →
        identify e = t.
Proof.
  intros [identify H].
  assert (Ha : identify (ExitError 1) = mkTask DirCreate "L/a" "/r/a").
  { eapply (H (world_file_at "/r/a")); vm_compute; reflexivity. }
  assert (Hb : identify (ExitError 1) = mkTask DirCreate "L/b" "/r/b").
  { eapply (H (world_file_at "/r/b")); vm_compute; reflexivity. }
  rewrite Ha in Hb. discriminate.
Qed.

(** ** File copies are sequential *)

(** C9, as the code has it: in every run of [CopyDir] at most one file
    copy is in flight at any time. *)
Theorem copies_one_at_a_time
    (L R : string) (tree : fsnode) (w w' : World) (r : option error)
    (evs : list Event) :
  CopyDir L R tree w = (w', r) →
  trace w' = trace w ++ evs →
  peak_in_flight 0 evs ≤ 1.
Proof.
  intros Hrun Htr. eapply seq_trace_peak, CopyDir_seq; eassumption.
Qed.

Lemma copies_one_at_a_time_witness :
  peak_in_flight 0
    (trace (fst (CopyDir "L" "/tmp/dst" tree_two_files
                   (with_files files_two empty_world)))) ≤ 1.
Proof.
  apply (copies_one_at_a_time "L" "/tmp/dst" tree_two_files
           (with_files files_two empty_world)
           (fst (CopyDir "L" "/tmp/dst" tree_two_files
                   (with_files files_two empty_world)))
           None).
  - vm_compute. reflexivity.
  - vm_compute. reflexivity.
Defined.

(** C9, counterexample: two files of one directory that exists on the
    remote side are copied one after the other; the second copy begins
    after the first has ended, and two copies are never in flight. *)
Lemma two_files_not_concurrent :
  trace (fst (CopyDir "L" "/tmp/dst" tree_two_files
                (with_files files_two empty_world)))
  = [EvBegin (mkTask DirCreate "L" "/tmp/dst");
     EvEnd (mkTask DirCreate "L" "/tmp/dst") None;
     EvBegin (mkTask FileCopy "L/f1" "/tmp/dst/f1");
     EvEnd (mkTask FileCopy "L/f1" "/tmp/dst/f1") None;
     EvBegin (mkTask FileCopy "L/f2" "/tmp/dst/f2");
     EvEnd (mkTask FileCopy "L/f2" "/tmp/dst/f2") None]
  ∧ ¬ 2 ≤ peak_in_flight 0
            (trace (fst (CopyDir "L" "/tmp/dst" tree_two_files
                           (with_files files_two empty_world)))).
Proof. split; [vm_compute; reflexivity | vm_compute; lia]. Qed.

(** ** Quoting *)

(** C1, at the failing input: for the directory [it's mine] the command
    is [mkdir -p '/tmp/dst/it's mine']; its last quote is not closed, the
    shell rejects it, [CopyDir] returns the exit error and the directory
    is not made. *)
Theorem apostrophe_breaks_mkdir :
  mkdir_command (filepath.Join ["/tmp/dst"; "it's mine"])
    = "mkdir -p '/tmp/dst/it's mine'"
  ∧ sh.words "mkdir -p '/tmp/dst/it's mine'" = None
  ∧ snd (CopyDir "L" "/tmp/dst" tree_quote empty_world) = Some (ExitError 2)
  ∧ last (trace (fst (CopyDir "L" "/tmp/dst" tree_quote empty_world)))
    = Some (EvEnd (mkTask DirCreate "L/it's mine" "/tmp/dst/it's mine")
                  (Some (ExitError 2)))
  ∧ remote_fs (fst (CopyDir "L" "/tmp/dst" tree_quote empty_world))
      !! "/tmp/dst/it's mine" = None.
Proof. repeat split; vm_compute; reflexivity. Qed.

(** ** Running twice *)

Lemma kind_dir (o : option rnode) : kind o = Some true ↔ o = Some RDir.
Proof. destruct o as [[|d]|]; simpl; split; congruence. Qed.

Lemma persists_kind (m m' : gmap string rnode) (p : string) :
  persists m m' → m !! p ≠ None → kind (m' !! p) = kind (m !! p).
Proof.
  intros Hp Hne. specialize (Hp p).
  destruct (m !! p) as [[|d]|]; [by rewrite Hp | | congruence].
  destruct Hp as [d' ->]. reflexivity.
Qed.

Lemma rop_run_persists (o : rop) (m m' : gmap string rnode) :
  rop_run o m = Some m' → persists m m'.
Proof.
  destruct o as [k|parent k data]; simpl.
  - destruct (m !! k) as [[|d]|] eqn:Hk; intros [= <-].
    + apply persists_refl.
    + by apply persists_insert_dir.
  - destruct (_ && _) eqn:Hok; intros [= <-].
    apply andb_true_iff in Hok as [_ Hk].
    apply negb_true_iff, bool_decide_eq_false in Hk.
    by apply persists_insert_file.
Qed.

Lemma rops_run_persists (os : list rop) (m m' : gmap string rnode) :
  rops_run os m = Some m' → persists m m'.
Proof.
  revert m. induction os as [|o os IH]; intros m; simpl.
  - intros [= <-]. apply persists_refl.
  - destruct (rop_run o m) as [m1|] eqn:Ho; [|discriminate].
    intros H. eapply persists_trans; [by eapply rop_run_persists | by apply IH].
Qed.

Lemma rops_run_app (os1 os2 : list rop) (m : gmap string rnode) :
  rops_run (os1 ++ os2) m =
    match rops_run os1 m with
    | Some m1 => rops_run os2 m1
    | None => None
    end.
Proof.
  revert m. induction os1 as [|o os1 IH]; intros m; simpl; [reflexivity|].
  destruct (rop_run o m); [apply IH | reflexivity].
Qed.





(** *** A successful task is its list of steps *)

Lemma ensure_dirs_rops (ks : list string) (m m' : gmap string rnode) :
  remote.ensure_dirs ks m = (m', true) ↔ rops_run (EnsureDir <$> ks) m = Some m'.
Proof.
  revert m. induction ks as [|k ks IH]; intros m; simpl.
  - split; congruence.
  - destruct (m !! k) as [[|d]|]; [apply IH | split; discriminate | apply IH].
Qed.

Lemma mkdir_p_all_rops (os : list string) (m m' : gmap string rnode) :
  remote.mkdir_p_all os m = (m', true) ↔
  forallb operand_ok os = true
  ∧ rops_run (EnsureDir <$> concat (remote.keys <$> os)) m = Some m'.
Proof.
  revert m. induction os as [|o os IH]; intros m.
  - simpl. split; [intros [= <-]; by split | intros [_ [= <-]]; reflexivity].
  - cbn [remote.mkdir_p_all forallb fmap list_fmap concat].
    rewrite fmap_app, rops_run_app. unfold remote.mkdir_p, operand_ok.
    destruct (Str.is_empty o || Str.head_is (Ascii.eqb "-") o); cbn [negb andb].
    + destruct (remote.mkdir_p_all os m) as [m2 ok2]. cbn [andb].
      split; [discriminate | intros [? _]; discriminate].
    + destruct (remote.ensure_dirs (remote.keys o) m) as [m1 ok1] eqn:H1.
      destruct ok1.
      * apply ensure_dirs_rops in H1. rewrite H1.
        specialize (IH m1). destruct (remote.mkdir_p_all os m1) as [m2 ok2].
        cbn [andb]. destruct ok2.
        -- split.
           ++ intros [= <-]. by apply IH.
           ++ intros H. apply IH in H. congruence.
        -- split; [discriminate|]. intros H. apply IH in H. discriminate.
      * destruct (rops_run (EnsureDir <$> remote.keys o) m) as [m1'|] eqn:H1'.
        { apply ensure_dirs_rops in H1'. congruence. }
        destruct (remote.mkdir_p_all os m1) as [m2 ok2]. cbn [andb].
        split; [discriminate | intros [_ ?]; discriminate].
Qed.

Lemma scan_some_shape (s : string) :
  ∀ quoted cur,
    sh.scan s quoted (Some cur) = None
    ∨ ∃ o os, sh.scan s quoted (Some cur) = Some (o :: os).
Proof.
  induction s as [|c s IH]; intros quoted cur; cbn [sh.scan].
  - destruct quoted; [by left | right; by exists cur, []].
  - destruct quoted.
    + destruct (Str.is_quote c); apply IH.
    + destruct (Str.is_quote c); [apply IH|].
      destruct (Ascii.eqb c " "); [|apply IH].
      cbn [sh.flush]. destruct (sh.scan s false None) as [ws|];
        [right; by exists cur, ws | by left].
Qed.

Lemma words_mkdir (dst : string) :
  sh.words (mkdir_command dst)
  = (λ ws, "mkdir" :: "-p" :: ws) <$> sh.scan (dst +:+ "'") true (Some "").
Proof.
  unfold mkdir_command, sh.words. rewrite !append_cons, append_nil_l.
  cbn. destruct (sh.scan (dst +:+ "'") true (Some "")); reflexivity.
Qed.

Lemma words_mkdir_shape (dst : string) :
  sh.words (mkdir_command dst) = None
  ∨ ∃ o os, sh.words (mkdir_command dst) = Some ("mkdir" :: "-p" :: o :: os).
Proof.
  rewrite words_mkdir.
  destruct (scan_some_shape (dst +:+ "'") true "") as [->|(o & os & ->)];
    [by left | right; by exists o, os].
Qed.

Lemma create_rops (data dst : string) (m m' : gmap string rnode) :
  copy_result data dst m = (m', None) ↔
  ∃ k ancestors, rev (remote.keys dst) = k :: ancestors
    ∧ rop_run (PutFile (head ancestors) k data) m = Some m'.
Proof.
  unfold copy_result, remote.create. cbn [rop_run].
  destruct (rev (remote.keys dst)) as [|k ancestors].
  - split; [discriminate | intros (? & ? & ? & _); discriminate].
  - assert (Hparent :
      match ancestors with
      | [] => true
      | p :: _ => bool_decide (m !! p = Some RDir)
      end
      = match head ancestors with
        | None => true
        | Some p => bool_decide (m !! p = Some RDir)
        end) by (by destruct ancestors).
    rewrite Hparent. clear Hparent.
    destruct (_ && _) eqn:Hok.
    + rewrite insert_insert_eq. split.
      * intros [= <-]. exists k, ancestors. split; [reflexivity|].
        by rewrite Hok.
      * intros (k' & anc' & Heq & Hrun). injection Heq as <- <-.
        rewrite Hok in Hrun. congruence.
    + split; [discriminate|]. intros (k' & anc' & Heq & Hrun).
      injection Heq as <- <-. rewrite Hok in Hrun. discriminate.
Qed.

Lemma task_result_rops (files : gmap string string) (t : Task)
    (m m' : gmap string rnode) :
  task_result files t m = (m', None) ↔
  ∃ ops, rops_of files t = Some ops ∧ rops_run ops m = Some m'.
Proof.
  unfold task_result, rops_of. destruct (task_kind t).
  - unfold exec_result, sh.exec.
    destruct (words_mkdir_shape (task_remote t)) as [->|(o & os & ->)].
    + split; [discriminate | intros (? & ? & _); discriminate].
    + change (String.eqb "mkdir" "mkdir") with true.
      change (String.eqb "-p" "-p") with true. cbn [andb]. cbv iota.
      pose proof (mkdir_p_all_rops (o :: os) m) as Hall.
      destruct (remote.mkdir_p_all (o :: os) m) as [m2 ok]. destruct ok.
      * destruct (proj1 (Hall m2) eq_refl) as [Hok Hrun]. rewrite Hok. split.
        -- intros [= <-]. eauto.
        -- intros (ops & Heq & Hops). injection Heq as <-.
           assert (Some m2 = Some m') as [= ->] by (rewrite <- Hrun; exact Hops).
           reflexivity.
      * split; [discriminate|]. intros (ops & Hops & Hrun).
        destruct (forallb operand_ok (o :: os)) eqn:Hok; [|discriminate].
        injection Hops as <-.
        pose proof (proj2 (Hall m') (conj eq_refl Hrun)) as Hbad.
        discriminate Hbad.
  - destruct (files !! task_local t) as [data|].
    + rewrite create_rops. split.
      * intros (k & anc & -> & Hrun). eexists. split; [reflexivity|].
        cbn [rops_run]. by rewrite Hrun.
      * intros (ops & Hops & Hrun).
        destruct (rev (remote.keys (task_remote t))) as [|k anc]; [discriminate|].
        injection Hops as <-. exists k, anc. split; [reflexivity|].
        cbn [rops_run] in Hrun.
        destruct (rop_run (PutFile (head anc) k data) m); congruence.
    + split; [discriminate | intros (? & ? & _); discriminate].
Qed.





(** ** Quoting of paths without an apostrophe *)

Lemma scan_quoted_plain (p rest acc : string) :
  Str.has Str.is_quote p = false →
  sh.scan (p +:+ rest) true (Some acc) = sh.scan rest true (Some (acc +:+ p)).
Proof.
  revert acc. induction p as [|c p IH]; intros acc Hp.
  - by rewrite append_nil_l, append_empty_r.
  - cbn [Str.has] in Hp. apply orb_false_iff in Hp as [Hc Hp].
    rewrite append_cons. cbn [sh.scan]. rewrite Hc. cbn [sh.push].
    rewrite (IH _ Hp), append_assoc. reflexivity.
Qed.

(** A path without an apostrophe reaches [mkdir] as one operand, blanks
    included. *)
Lemma mkdir_command_words (dst : string) :
  Str.has Str.is_quote dst = false →
  sh.words (mkdir_command dst) = Some ["mkdir"; "-p"; dst].
Proof.
  intros Hq. rewrite words_mkdir, (scan_quoted_plain dst "'" "" Hq).
  reflexivity.
Qed.

(** The end-to-end scenario: every directory is made, the empty one too,
    and the two files arrive with their contents. *)
Example end_to_end :
  let w := fst (CopyDir "L" "/tmp/dst" tree_scenario
                  (with_files files_scenario empty_world)) in
  snd (CopyDir "L" "/tmp/dst" tree_scenario
         (with_files files_scenario empty_world)) = None
  ∧ remote_fs w !! "/tmp/dst/empty" = Some RDir
  ∧ remote_fs w !! "/tmp/dst/a" = Some RDir
  ∧ remote_fs w !! "/tmp/dst/a/b" = Some RDir
  ∧ remote_fs w !! "/tmp/dst/a/file1.txt" = Some (RFile "hi")
  ∧ remote_fs w !! "/tmp/dst/a/b/file2.txt" = Some (RFile "")
  ∧ mkdir_command "/tmp/dst/a/b" = "mkdir -p '/tmp/dst/a/b'".
Proof. repeat split; vm_compute; reflexivity. Qed.

(** * Further properties of the four operations *)

(** ** CopyFile *)

(** X1: when the local file cannot be opened, [CopyFile] returns the
    open error and leaves the world as it was: the remote side is not
    touched and no transport call is made. *)
Theorem CopyFile_missing_local (localPath remotePath : string) (w : World) :
  local_files w !! localPath = None →
  CopyFile localPath remotePath w = (w, Some (PathError "open" localPath 2)).
Proof. intros H. unfold CopyFile, os_Open, bind. by rewrite H. Qed.

Lemma CopyFile_missing_local_witness :
  CopyFile "L/none" "/tmp/dst/none" empty_world
  = (empty_world, Some (PathError "open" "L/none" 2)).
Proof. apply (CopyFile_missing_local "L/none" "/tmp/dst/none" empty_world). reflexivity. Defined.

Lemma rev_cons_last {A} (l : list A) (k : A) (before : list A) :
  rev l = k :: before → last l = Some k.
Proof.
  intros H. apply (f_equal (@rev A)) in H. rewrite rev_involutive in H.
  subst l. cbn [rev]. apply last_snoc.
Qed.

(** X2: when [CopyFile] succeeds, the local file exists, the remote path
    was not a directory, and the remote side differs from before in one
    place only: the last key of the remote path now holds the bytes of
    the local file, whatever was there. *)
Theorem CopyFile_success (localPath remotePath : string) (w w' : World) :
  CopyFile localPath remotePath w = (w', None) →
  ∃ data k,
    local_files w !! localPath = Some data
    ∧ last (remote.keys remotePath) = Some k
    ∧ remote_fs w !! k ≠ Some RDir
    ∧ remote_fs w' = <[k := RFile data]> (remote_fs w).
Proof.
  intros Hrun. pose proof (CopyFile_spec localPath remotePath w) as Hs.
  rewrite Hrun in Hs. destruct Hs as (_ & _ & [(? & _)|[(c & ? & _)|(data & Hd & Hres & _)]]);
    try discriminate.
  exists data. symmetry in Hres. apply create_rops in Hres as (k & anc & Hk & Hput).
  exists k. split; [exact Hd|]. split; [by eapply rev_cons_last|].
  cbn [rop_run] in Hput. destruct (_ && _) eqn:Hok; [|discriminate].
  apply andb_true_iff in Hok as [_ Hnd].
  apply negb_true_iff, bool_decide_eq_false in Hnd.
  split; [exact Hnd | congruence].
Qed.

Lemma CopyFile_success_witness :
  ∃ data k,
    local_files (with_files files_two (world_file_at "f1")) !! "L/f1" = Some data
    ∧ last (remote.keys "f1") = Some k
    ∧ remote_fs (with_files files_two (world_file_at "f1")) !! k ≠ Some RDir
    ∧ remote_fs (fst (CopyFile "L/f1" "f1" (with_files files_two (world_file_at "f1"))))
      = <[k := RFile data]> (remote_fs (with_files files_two (world_file_at "f1"))).
Proof.
  apply (CopyFile_success "L/f1" "f1" (with_files files_two (world_file_at "f1"))).
  vm_compute. reflexivity.
Defined.

(** X3: [CopyFile] makes no directory: when the parent of the remote
    path is not a directory on the remote side, the call fails and the
    remote side is as before, whatever the transport does. *)
Theorem CopyFile_needs_parent
    (localPath remotePath k p : string) (ancestors : list string) (w : World) :
  rev (remote.keys remotePath) = k :: p :: ancestors →
  remote_fs w !! p ≠ Some RDir →
  snd (CopyFile localPath remotePath w) ≠ None
  ∧ remote_fs (fst (CopyFile localPath remotePath w)) = remote_fs w.
Proof.
  intros Hk Hp.
  assert (Hcreate : ∀ m, m !! p ≠ Some RDir → remote.create remotePath m = None).
  { intros m Hm. unfold remote.create. rewrite Hk.
    by rewrite (bool_decide_eq_false_2 _ Hm). }
  unfold CopyFile, os_Open, client_Create, io_Copy, bind, defer, next_fault, ret.
  destruct w as [m lf fs ss ol or fd tr]; cbn [local_files faults remote_fs] in *.
  destruct (lf !! localPath) as [data|]; [|by split].
  destruct fs as [|[code|] fs]; simpl; rewrite ?(Hcreate m Hp); simpl; by split.
Qed.

Lemma CopyFile_needs_parent_witness :
  snd (CopyFile "L/f1" "/tmp/dst/f1" (with_files files_two empty_world)) ≠ None
  ∧ remote_fs (fst (CopyFile "L/f1" "/tmp/dst/f1" (with_files files_two empty_world)))
    = remote_fs (with_files files_two empty_world).
Proof.
  apply (CopyFile_needs_parent "L/f1" "/tmp/dst/f1" "/tmp/dst/f1" "/tmp/dst" ["/tmp"]).
  - vm_compute. reflexivity.
  - vm_compute. discriminate.
Defined.

(** ** RunCommand *)

(** X4: when the session cannot be opened, [RunCommand] returns the
    transport error with an empty output and the command is never run:
    the remote side is as before and one entry of the fault schedule is
    used up. *)
Theorem RunCommand_session_fault
    (command : string) (w : World) (code : nat) (rest : list (option nat)) :
  faults w = Some code :: rest →
  RunCommand command w = (with_faults rest w, ("", Some (TransportError code))).
Proof.
  intros Hf. unfold RunCommand, NewSession, bind, next_fault. rewrite Hf.
  reflexivity.
Qed.

Lemma RunCommand_session_fault_witness :
  RunCommand "mkdir -p '/tmp/dst'" world_session_fault
  = (with_faults [] world_session_fault, ("", Some (TransportError 3))).
Proof.
  apply (RunCommand_session_fault "mkdir -p '/tmp/dst'" world_session_fault 3 []).
  reflexivity.
Defined.

(** X5: over a reliable transport, the directory-create command of a
    path without an apostrophe does what [mkdir -p] of that very path
    does, blanks in the path included, and [RunCommand] returns an
    error exactly when that fails. *)
Theorem RunCommand_mkdir_plain_path (dst : string) (w : World) :
  faults w = [] →
  Str.has Str.is_quote dst = false →
  remote_fs (fst (RunCommand (mkdir_command dst) w))
    = fst (remote.mkdir_p dst (remote_fs w))
  ∧ (snd (snd (RunCommand (mkdir_command dst) w)) = None
     ↔ snd (remote.mkdir_p dst (remote_fs w)) = true).
Proof.
  intros Hf Hq. pose proof (RunCommand_spec (mkdir_command dst) w) as Hs.
  destruct (RunCommand (mkdir_command dst) w) as [w' [out err]]. cbn [fst snd].
  destruct Hs as (_ & _ & [(c & _ & Hne & _)|[Hres _]]); [congruence|].
  unfold exec_result, sh.exec in Hres. rewrite (mkdir_command_words dst Hq) in Hres.
  change (String.eqb "mkdir" "mkdir") with true in Hres.
  change (String.eqb "-p" "-p") with true in Hres. cbv iota in Hres.
  cbn [remote.mkdir_p_all] in Hres.
  destruct (remote.mkdir_p dst (remote_fs w)) as [m ok]. cbn [fst snd].
  rewrite andb_true_r in Hres. injection Hres as -> ->.
  split; [reflexivity|]. destruct ok; split; congruence.
Qed.

Lemma RunCommand_mkdir_plain_path_witness :
  remote_fs (fst (RunCommand (mkdir_command "/tmp/my files") empty_world))
    = fst (remote.mkdir_p "/tmp/my files" (remote_fs empty_world))
  ∧ (snd (snd (RunCommand (mkdir_command "/tmp/my files") empty_world)) = None
     ↔ snd (remote.mkdir_p "/tmp/my files" (remote_fs empty_world)) = true).
Proof.
  apply (RunCommand_mkdir_plain_path "/tmp/my files" empty_world); reflexivity.
Defined.

(** ** CopyDir *)

Lemma task_of_entry (L R : string) (e : list string * fsnode) (t : Task) :
  Forall (λ n, valid_name n = true) (fst e) →
  task_of L R (visit_of L e) = Some t →
  t = entry_task L R e ∧ readable (snd e) = true.
Proof.
  destruct e as [ns x]. intros Hns Ht.
  destruct (task_of_visit L R ns x t Hns Ht) as [-> Hx]. split; [reflexivity|].
  destruct Hx as [->|[es ->]]; reflexivity.
Qed.

Lemma seq_trace_success (L R : string) (es : list (list string * fsnode)) :
  ∀ evs,
    Forall (λ e, Forall (λ n, valid_name n = true) (fst e)) es →
    seq_trace (task_of L R) (map (visit_of L) es) evs None →
    evs = ok_events (map (entry_task L R) es)
    ∧ Forall (λ e, readable (snd e) = true) es.
Proof.
  induction es as [|e es IH]; intros evs Hes Hseq; cbn [map] in Hseq.
  - inversion Hseq. by split.
  - apply Forall_cons in Hes as [He Hes].
    inversion Hseq as [| | |v vs t evs' r Ht Hrest]; subst.
    destruct (task_of_entry L R e t He Ht) as [-> Hr].
    destruct (IH evs' Hes Hrest) as [-> Hall].
    split; [reflexivity | by constructor].
Qed.

(** X6: when [CopyDir] returns no error over a tree of well-formed
    names, every entry of the tree could be read and the run consists of
    exactly one task per entry, parents first and siblings in listing
    order, each ended without error: no entry is skipped and none is
    done twice. *)
Theorem CopyDir_success_trace
    (L R : string) (tree : fsnode) (w w' : World) (evs : list Event) :
  wf_tree tree = true →
  CopyDir L R tree w = (w', None) →
  trace w' = trace w ++ evs →
  evs = ok_events (map (entry_task L R) (entries_of tree))
  ∧ Forall (λ e, readable (snd e) = true) (entries_of tree).
Proof.
  intros Hwf Hrun Htr. apply seq_trace_success.
  - by apply entries_valid.
  - by eapply CopyDir_seq.
Qed.

Lemma CopyDir_success_trace_witness :
  trace (fst (CopyDir "L" "/tmp/dst" tree_scenario
                (with_files files_scenario empty_world)))
  = ok_events (map (entry_task "L" "/tmp/dst") (entries_of tree_scenario))
  ∧ Forall (λ e, readable (snd e) = true) (entries_of tree_scenario).
Proof.
  apply (CopyDir_success_trace "L" "/tmp/dst" tree_scenario
           (with_files files_scenario empty_world)
           (fst (CopyDir "L" "/tmp/dst" tree_scenario
                   (with_files files_scenario empty_world)))).
  - reflexivity.
  - vm_compute. reflexivity.
  - vm_compute. reflexivity.
Defined.

Lemma RunCommand_handles (command : string) (w : World) :
  handles (fst (RunCommand command w)) = handles w.
Proof.
  unfold RunCommand, NewSession, session_Output, bind, defer, next_fault, ret,
    handles.
  destruct w as [m lf fs ss ol or fd tr]; simpl.
  destruct fs as [|[code|] fs]; simpl; try reflexivity;
    try destruct fs as [|[code'|] fs]; simpl;
    try (destruct (sh.exec command m) as [m' status]; destruct status); simpl;
    rewrite ?Nat.eqb_refl; reflexivity.
Qed.

Lemma CopyFile_handles (localPath remotePath : string) (w : World) :
  handles (fst (CopyFile localPath remotePath w)) = handles w.
Proof.
  unfold CopyFile, os_Open, client_Create, io_Copy, bind, defer, next_fault,
    ret, handles.
  destruct w as [m lf fs ss ol or fd tr]; simpl.
  destruct (lf !! localPath) as [data|]; simpl; [|reflexivity].
  destruct fs as [|[code|] fs]; simpl;
    try destruct (remote.create remotePath m) as [[k m']|]; simpl;
    try destruct fs as [|[code'|] fs]; simpl;
    rewrite ?Nat.eqb_refl; reflexivity.
Qed.

Lemma copyDirFn_handles (L R path : string) (info : option FileInfo)
    (err : option error) (w : World) :
  handles (fst (copyDirFn L R path info err w)) = handles w.
Proof.
  unfold copyDirFn. destruct err as [e|]; [reflexivity|].
  destruct (filepath.Rel L path) as [relPath|e]; [|reflexivity].
  destruct info as [[isdir]|]; [|reflexivity]. cbn [IsDir].
  destruct isdir; unfold bind, emit.
  - set (w0 := mkWorld _ _ _ _ _ _ _ _).
    pose proof (RunCommand_handles (mkdir_command (filepath.Join [R; relPath])) w0) as H.
    destruct (RunCommand _ w0) as [w1 [out e]]. cbn [fst snd] in *.
    destruct e; exact H.
  - set (w0 := mkWorld _ _ _ _ _ _ _ _).
    pose proof (CopyFile_handles path (filepath.Join [R; relPath]) w0) as H.
    destruct (CopyFile _ _ w0) as [w1 e]. cbn [fst snd] in *.
    destruct e; exact H.
Qed.

Lemma visit_all_handles (L R : string) (vs : list Visit) (w : World) :
  handles (fst (visit_all (copyDirFn L R) vs w)) = handles w.
Proof.
  revert w. induction vs as [|v vs IH]; intros w; cbn [visit_all]; [reflexivity|].
  unfold bind.
  pose proof (copyDirFn_handles L R (v_path v) (v_info v) (v_err v) w) as H.
  destruct (copyDirFn L R (v_path v) (v_info v) (v_err v) w) as [w1 [e|]];
    cbn [fst] in H; [exact H|].
  by rewrite IH.
Qed.

(** X7: a whole run of [CopyDir], whatever its outcome and whatever the
    transport does, leaves open exactly the sessions, local files and
    remote files that were open before it. *)
Theorem CopyDir_leaves_no_handle
    (L R : string) (tree : fsnode) (w : World) :
  handles (fst (CopyDir L R tree w)) = handles w.
Proof. rewrite CopyDir_visit_all. apply visit_all_handles. Qed.

(** X10: when the local root cannot be read, because [lstat] fails or
    because its names cannot be listed, [CopyDir] returns that error and
    leaves the world as it was: nothing is made on the remote side, not
    even the remote root. *)
Theorem CopyDir_unreadable_root (L R : string) (w : World) :
  (∀ errno, CopyDir L R (Missing errno) w
            = (w, Some (PathError "lstat" L errno)))
  ∧ (∀ errno entries, CopyDir L R (Directory (Some errno) entries) w
                      = (w, Some (PathError "open" L errno))).
Proof. split; intros; rewrite CopyDir_visit_all; reflexivity. Qed.

(** *** One task, unfolded *)

Lemma copyDirFn_task (L R : string) (v : Visit) (t : Task) (w : World) :
  task_of L R v = Some t →
  copyDirFn L R (v_path v) (v_info v) (v_err v) w =
    let w0 := fst (emit (EvBegin t) w) in
    match task_kind t with
    | DirCreate =>
        let '(w1, r) := RunCommand (mkdir_command (task_remote t)) w0 in
        (fst (emit (EvEnd t (snd r)) w1), snd r)
    | FileCopy =>
        let '(w1, err) := CopyFile (task_local t) (task_remote t) w0 in
        (fst (emit (EvEnd t err) w1), err)
    end.
Proof.
  destruct v as [path info err]. unfold task_of, copyDirFn.
  cbn [v_path v_info v_err].
  destruct err as [e|]; [discriminate|].
  destruct (filepath.Rel L path) as [relPath|e]; [|discriminate].
  destruct info as [[isdir]|]; [|discriminate]. cbn [IsDir].
  intros [= <-]. destruct isdir; cbn [task_kind task_local task_remote];
    unfold bind; cbn [emit fst].
  - destruct (RunCommand _ _) as [w1 [out [e|]]]; reflexivity.
  - destruct (CopyFile _ _ _) as [w1 [e|]]; reflexivity.
Qed.

Lemma task_of_remote (L R : string) (v : Visit) (t : Task) :
  task_of L R v = Some t → ∃ relPath, task_remote t = filepath.Join [R; relPath].
Proof.
  unfold task_of. destruct (v_err v); [discriminate|].
  destruct (filepath.Rel L (v_path v)) as [relPath|]; [|discriminate].
  destruct (v_info v); [|discriminate]. intros [= <-]. by exists relPath.
Qed.

(** What a task that ended without error has done. *)
Lemma copyDirFn_ok_effect (L R : string) (v : Visit) (t : Task) (w w1 : World) :
  task_of L R v = Some t →
  copyDirFn L R (v_path v) (v_info v) (v_err v) w = (w1, None) →
  match task_kind t with
  | DirCreate =>
      exec_result (mkdir_command (task_remote t)) (remote_fs w)
      = (remote_fs w1, None)
  | FileCopy =>
      ∃ data, local_files w !! task_local t = Some data
              ∧ copy_result data (task_remote t) (remote_fs w)
                = (remote_fs w1, None)
  end.
Proof.
  intros Ht. rewrite (copyDirFn_task L R v t w Ht). cbn zeta.
  set (w0 := fst (emit (EvBegin t) w)).
  assert (Hm : remote_fs w0 = remote_fs w) by reflexivity.
  assert (Hl : local_files w0 = local_files w) by reflexivity.
  destruct (task_kind t).
  - pose proof (RunCommand_spec (mkdir_command (task_remote t)) w0) as Hs.
    destruct (RunCommand _ w0) as [w2 [out err]]. cbn [snd emit fst].
    intros [= <- ->].
    destruct Hs as (_ & _ & [(c & ? & _)|[Hres _]]); [discriminate|].
    cbn [remote_fs]. by rewrite <- Hm, <- Hres.
  - pose proof (CopyFile_spec (task_local t) (task_remote t) w0) as Hs.
    destruct (CopyFile _ _ w0) as [w2 err]. cbn [emit fst].
    intros [= <- ->].
    destruct Hs as (_ & _ & [(? & _)|[(c & ? & _)|(data & Hd & Hres & _)]]);
      try discriminate.
    exists data. cbn [remote_fs]. rewrite <- Hl, <- Hm. by split.
Qed.

(** *** Directories that were made *)

Lemma ensure_dirs_made (ks : list string) (m m' : gmap string rnode) :
  remote.ensure_dirs ks m = (m', true) →
  ∀ k, In k ks → m' !! k = Some RDir.
Proof.
  revert m. induction ks as [|k0 ks IH]; intros m Hrun k Hin; [destruct Hin|].
  cbn [remote.ensure_dirs] in Hrun. destruct Hin as [<-|Hin].
  - assert (Hafter : ∀ m1, m1 !! k0 = Some RDir →
                           remote.ensure_dirs ks m1 = (m', true) →
                           m' !! k0 = Some RDir).
    { intros m1 Hk0 H1. pose proof (ensure_dirs_persists ks m1 k0) as Hp.
      rewrite H1, Hk0 in Hp. exact Hp. }
    destruct (m !! k0) as [[|d]|] eqn:Hk0; [|discriminate|].
    + by apply (Hafter m).
    + apply (Hafter (<[k0 := RDir]> m)); [apply lookup_insert_eq | exact Hrun].
  - destruct (m !! k0) as [[|d]|]; [|discriminate|]; by eapply IH.
Qed.

Lemma exec_mkdir_made (dst : string) (m m' : gmap string rnode) :
  Str.has Str.is_quote dst = false →
  exec_result (mkdir_command dst) m = (m', None) →
  ∀ k, In k (remote.keys dst) → m' !! k = Some RDir.
Proof.
  intros Hq Hres. unfold exec_result, sh.exec in Hres.
  rewrite (mkdir_command_words dst Hq) in Hres.
  change (String.eqb "mkdir" "mkdir") with true in Hres.
  change (String.eqb "-p" "-p") with true in Hres. cbv iota in Hres.
  cbn [remote.mkdir_p_all] in Hres. unfold remote.mkdir_p in Hres.
  destruct (_ || _); [discriminate|].
  destruct (remote.ensure_dirs (remote.keys dst) m) as [m1 ok] eqn:He.
  destruct ok; [|discriminate]. injection Hres as <-.
  by apply (ensure_dirs_made _ _ _ He).
Qed.

Lemma Join_clean (elem : list string) :
  filepath.Join elem ≠ "" → filepath.Clean (filepath.Join elem) = filepath.Join elem.
Proof.
  induction elem as [|e rest IH]; unfold filepath.Join; fold filepath.Join;
    [congruence|].
  destruct (Str.is_empty e); [exact IH|]. intros _. apply Clean_idempotent.
Qed.

Lemma filter_all {A} (f : A → bool) (l : list A) :
  Forall (λ x, f x = true) l → List.filter f l = l.
Proof.
  induction 1 as [|x l Hx _ IH]; [reflexivity|]. cbn. by rewrite Hx, IH.
Qed.

Lemma prefixes_last (acc : string) (e : list string) :
  e ≠ [] → last (remote.prefixes acc e) = Some (acc +:+ Str.join e).
Proof.
  revert acc. induction e as [|x e IH]; intros acc Hne; [congruence|].
  destruct e as [|y e]; [reflexivity|].
  change (remote.prefixes acc (x :: y :: e))
    with ((acc +:+ x) :: remote.prefixes (acc +:+ x +:+ "/") (y :: e)).
  rewrite last_cons, IH by discriminate. rewrite join_cons, !append_assoc.
  sapp. reflexivity.
Qed.

Lemma keys_elems (p : string) :
  remote.keys p
  = remote.prefixes (if rooted_of p then "/" else "") (elems_of p).
Proof.
  unfold remote.keys. rewrite (Clean_elems p).
  pose proof (elems_of_normal p) as Hn.
  destruct (render_facts _ _ Hn) as [Hr _]. unfold rooted_of in Hr at 1.
  rewrite Hr. f_equal.
  pose proof (normal_rev_solid _ _ Hn) as [Hsolid Hplain].
  assert (Hnamed : Forall (λ x, remote.named x = true) (elems_of p)).
  { apply normal_not_dot in Hn. apply (proj1 (Forall_rev_iff _ _)) in Hn.
    eapply Forall_impl; [exact Hn|]. intros x [Hd He]. unfold remote.named.
    destruct x; [congruence|]. cbn [Str.is_empty negb andb].
    apply negb_true_iff, String.eqb_neq. exact Hd. }
  unfold filepath.render. destruct (rooted_of p).
  - sapp. cbn [Str.split]. change (Str.is_slash "/") with true. cbv iota.
    cbn [List.filter]. change (remote.named "") with false. cbv iota.
    destruct (elems_of p) as [|x e] eqn:He; [reflexivity|].
    rewrite split_join by (done || discriminate). by apply filter_all.
  - destruct (elems_of p) as [|x e] eqn:He; [reflexivity|].
    rewrite split_join by (done || discriminate). by apply filter_all.
Qed.

(** The last key of a path is the cleaned path itself. *)
Lemma keys_last (p : string) :
  remote.keys p ≠ [] → last (remote.keys p) = Some (filepath.Clean p).
Proof.
  rewrite keys_elems, Clean_elems. intros Hne.
  destruct (elems_of p) as [|x e] eqn:He; [by destruct (rooted_of p)|].
  rewrite prefixes_last by discriminate.
  unfold filepath.render. by destruct (rooted_of p).
Qed.

Lemma keys_last_in (p : string) :
  remote.keys p ≠ [] → In (filepath.Clean p) (remote.keys p).
Proof.
  intros Hne. apply keys_last in Hne.
  destruct (remote.keys p) as [|k ks] using rev_ind; [discriminate|].
  rewrite last_snoc in Hne. injection Hne as <-. apply in_or_app. right; by left.
Qed.

Lemma visit_all_made (L R : string) (vs : list Visit) :
  ∀ (w w' : World) (r : option error) (evs : list Event) (t : Task),
    visit_all (copyDirFn L R) vs w = (w', r) →
    trace w' = trace w ++ evs →
    In (EvEnd t None) evs →
    task_kind t = DirCreate →
    Str.has Str.is_quote (task_remote t) = false →
    ∀ k, In k (remote.keys (task_remote t)) → remote_fs w' !! k = Some RDir.
Proof.
  induction vs as [|v vs IH]; intros w w' r evs t Hrun Htr Hin Hkind Hq k Hk;
    cbn [visit_all] in Hrun.
  - unfold ret in Hrun. injection Hrun as <- _.
    rewrite <- (app_nil_r (trace w)) in Htr at 1. apply app_inv_head in Htr.
    subst evs. destruct Hin.
  - unfold bind in Hrun.
    pose proof (copyDirFn_spec L R v w) as Hv.
    destruct (copyDirFn L R (v_path v) (v_info v) (v_err v) w) as [w1 r1] eqn:Hfn.
    destruct Hv as (_ & _ & Hv).
    destruct (task_of L R v) as [t0|] eqn:Ht0.
    + destruct Hv as (Htr1 & _ & _).
      destruct r1 as [e|].
      * unfold ret in Hrun. injection Hrun as <- _.
        rewrite Htr1 in Htr. apply app_inv_head in Htr. subst evs.
        destruct Hin as [?|[?|[]]]; discriminate.
      * pose proof (visit_all_seq L R vs w1) as Hrest. rewrite Hrun in Hrest.
        destruct Hrest as (_ & Hpers & evs' & Htr' & _).
        rewrite Htr', Htr1, <- app_assoc in Htr. apply app_inv_head in Htr.
        subst evs. destruct Hin as [?|[Heq|Hin]]; [discriminate| |].
        -- injection Heq as ->.
           pose proof (copyDirFn_ok_effect L R v t w w1 Ht0 Hfn) as Heff.
           rewrite Hkind in Heff.
           pose proof (exec_mkdir_made _ _ _ Hq Heff k Hk) as Hmade.
           specialize (Hpers k). by rewrite Hmade in Hpers.
        -- by eapply (IH w1 w' r evs' t).
    + destruct Hv as (-> & e & -> & _). unfold ret in Hrun.
      injection Hrun as <- _.
      rewrite <- (app_nil_r (trace w)) in Htr at 1. apply app_inv_head in Htr.
      subst evs. destruct Hin.
Qed.

Lemma seq_trace_ended (task : Visit → option Task) (vs : list Visit)
    (evs : list Event) (r : option error) (t : Task) (err : option error) :
  seq_trace task vs evs r → In (EvEnd t err) evs →
  ∃ v, In v vs ∧ task v = Some t.
Proof.
  induction 1 as [|v vs e Hv|v vs t0 e Hv Hraw|v vs t0 evs r Hv Hseq IH];
    intros Hin.
  - destruct Hin.
  - destruct Hin.
  - destruct Hin as [?|[Heq|[]]]; [discriminate|]. injection Heq as <- _.
    exists v. split; [by left | exact Hv].
  - destruct Hin as [?|[Heq|Hin]]; [discriminate| |].
    + injection Heq as <- _. exists v. split; [by left | exact Hv].
    + destruct (IH Hin) as (v' & Hv' & Ht'). exists v'. split; [by right | exact Ht'].
Qed.

(** The remote path of a task is a key of its own when it has keys. *)
Lemma task_remote_in_keys (L R : string) (v : Visit) (t : Task) :
  task_of L R v = Some t →
  remote.keys (task_remote t) ≠ [] →
  filepath.Clean (task_remote t) = task_remote t
  ∧ In (task_remote t) (remote.keys (task_remote t)).
Proof.
  intros Ht Hne. destruct (task_of_remote L R v t Ht) as [relPath Hrem].
  assert (Hclean : filepath.Clean (task_remote t) = task_remote t).
  { rewrite Hrem. apply Join_clean. rewrite <- Hrem. intros Hempty.
    rewrite Hempty in Hne. by apply Hne. }
  split; [exact Hclean|]. rewrite <- Hclean at 1. by apply keys_last_in.
Qed.

(** The operand of a directory-create task of the run, when every
    command of the tree has a plain one. *)
Lemma plain_run_ended (L R : string) (tree : fsnode) (w w' : World)
    (r : option error) (evs : list Event) (t : Task) (err : option error) :
  plain_run L R tree = true →
  CopyDir L R tree w = (w', r) →
  trace w' = trace w ++ evs →
  In (EvEnd t err) evs →
  task_kind t = DirCreate →
  Str.has Str.is_quote (task_remote t) = false.
Proof.
  intros Hplain Hrun Htr Hin Hkind.
  pose proof (CopyDir_seq _ _ _ _ _ _ _ Hrun Htr) as Hseq.
  destruct (seq_trace_ended _ _ _ _ _ _ Hseq Hin) as (v & Hv & Ht).
  unfold plain_run in Hplain. rewrite preorder_entries in Hplain.
  rewrite forallb_forall in Hplain. specialize (Hplain v Hv).
  unfold plain_visit in Hplain. rewrite Ht, Hkind in Hplain.
  unfold plain_operand in Hplain. apply andb_true_iff in Hplain as [Hq _].
  by apply negb_true_iff in Hq.
Qed.

(** X11: in every run of [CopyDir] over a tree whose directory-create
    commands all have a plain operand, whatever the outcome of the run,
    a directory-create task that ended without error has made its
    remote path and all its ancestors, and they are directories when
    [CopyDir] returns; this holds for directories without entries as
    for the others. *)
Theorem CopyDir_made_directories
    (L R : string) (tree : fsnode) (w w' : World) (r : option error)
    (evs : list Event) (t : Task) :
  plain_run L R tree = true →
  CopyDir L R tree w = (w', r) →
  trace w' = trace w ++ evs →
  In (EvEnd t None) evs →
  task_kind t = DirCreate →
  (∀ k, In k (remote.keys (task_remote t)) → remote_fs w' !! k = Some RDir)
  ∧ (remote.keys (task_remote t) ≠ [] →
     remote_fs w' !! task_remote t = Some RDir).
Proof.
  intros Hplain Hrun Htr Hin Hkind.
  pose proof (plain_run_ended _ _ _ _ _ _ _ _ _ Hplain Hrun Htr Hin Hkind) as Hq.
  assert (Hall : ∀ k, In k (remote.keys (task_remote t)) →
                      remote_fs w' !! k = Some RDir).
  { rewrite CopyDir_visit_all in Hrun. by eapply visit_all_made. }
  split; [exact Hall|]. intros Hne. apply Hall.
  pose proof (CopyDir_seq _ _ _ _ _ _ _ Hrun Htr) as Hseq.
  destruct (seq_trace_ended _ _ _ _ _ _ Hseq Hin) as (v & _ & Ht).
  by destruct (task_remote_in_keys L R v t Ht Hne).
Qed.

Lemma CopyDir_made_directories_witness :
  (∀ k, In k (remote.keys "/tmp/dst/empty") →
        remote_fs (fst (CopyDir "L" "/tmp/dst" tree_scenario
                          (with_files files_scenario empty_world))) !! k
        = Some RDir)
  ∧ (remote.keys "/tmp/dst/empty" ≠ [] →
     remote_fs (fst (CopyDir "L" "/tmp/dst" tree_scenario
                       (with_files files_scenario empty_world)))
       !! "/tmp/dst/empty" = Some RDir).
Proof.
  apply (CopyDir_made_directories "L" "/tmp/dst" tree_scenario
           (with_files files_scenario empty_world)
           (fst (CopyDir "L" "/tmp/dst" tree_scenario
                   (with_files files_scenario empty_world)))
           None
           (trace (fst (CopyDir "L" "/tmp/dst" tree_scenario
                          (with_files files_scenario empty_world))))
           (mkTask DirCreate "L/empty" "/tmp/dst/empty")).
  - vm_compute. reflexivity.
  - vm_compute. reflexivity.
  - vm_compute. reflexivity.
  - vm_compute. tauto.
  - reflexivity.
Defined.

(** *** Files that were copied *)

Lemma extends_refl (m : gmap string rnode) : extends m m.
Proof. by intros p x. Qed.

Lemma extends_trans (m1 m2 m3 : gmap string rnode) :
  extends m1 m2 → extends m2 m3 → extends m1 m3.
Proof. intros H12 H23 p x Hp. by apply H23, H12. Qed.

Lemma ensure_dirs_extends (ks : list string) (m : gmap string rnode) :
  extends m (fst (remote.ensure_dirs ks m)).
Proof.
  revert m. induction ks as [|k ks IH]; intros m; cbn [remote.ensure_dirs];
    [apply extends_refl|].
  destruct (m !! k) as [[|d]|] eqn:Hk; [apply IH | apply extends_refl |].
  eapply extends_trans; [|apply IH]. intros p x Hp.
  rewrite lookup_insert_ne; [exact Hp | congruence].
Qed.

Lemma mkdir_p_all_extends (operands : list string) (m : gmap string rnode) :
  extends m (fst (remote.mkdir_p_all operands m)).
Proof.
  revert m. induction operands as [|o os IH]; intros m; cbn [remote.mkdir_p_all];
    [apply extends_refl|].
  destruct (remote.mkdir_p o m) as [m1 ok1] eqn:H1.
  specialize (IH m1). destruct (remote.mkdir_p_all os m1) as [m2 ok2].
  cbn [fst] in *. eapply extends_trans; [|exact IH].
  unfold remote.mkdir_p in H1. destruct (_ || _).
  - injection H1 as <- _. apply extends_refl.
  - pose proof (ensure_dirs_extends (remote.keys o) m) as He.
    by rewrite H1 in He.
Qed.

Lemma exec_extends (command : string) (m : gmap string rnode) :
  extends m (fst (sh.exec command m)).
Proof.
  unfold sh.exec.
  destruct (sh.words command) as [[|prog args]|]; try apply extends_refl.
  destruct (String.eqb prog "mkdir"); [|apply extends_refl].
  destruct args as [|flag operands]; [apply extends_refl|].
  destruct (String.eqb flag "-p"); [|apply extends_refl].
  destruct operands as [|o os]; [apply extends_refl|].
  pose proof (mkdir_p_all_extends (o :: os) m) as He.
  by destruct (remote.mkdir_p_all (o :: os) m) as [m' ok].
Qed.

Lemma RunCommand_extends (command : string) (w : World) :
  extends (remote_fs w) (remote_fs (fst (RunCommand command w))).
Proof.
  pose proof (RunCommand_spec command w) as Hs.
  destruct (RunCommand command w) as [w' [out err]]. cbn [fst].
  destruct Hs as (_ & _ & [(c & _ & _ & ->)|[Hres _]]); [apply extends_refl|].
  unfold exec_result in Hres. pose proof (exec_extends command (remote_fs w)) as He.
  destruct (sh.exec command (remote_fs w)) as [m st]. by injection Hres as -> _.
Qed.

Lemma create_key (path k : string) (m m' : gmap string rnode) :
  remote.create path m = Some (k, m') →
  last (remote.keys path) = Some k ∧ m' = <[k := RFile ""]> m.
Proof.
  unfold remote.create. destruct (rev (remote.keys path)) as [|k0 anc] eqn:Hrev;
    [discriminate|].
  destruct (_ && _); [|discriminate]. intros [= <- <-].
  split; [by eapply rev_cons_last | reflexivity].
Qed.

(** [CopyFile] writes at the last key of the remote path and nowhere
    else. *)
Lemma CopyFile_frame (localPath remotePath p : string) (w : World) :
  last (remote.keys remotePath) ≠ Some p →
  remote_fs (fst (CopyFile localPath remotePath w)) !! p = remote_fs w !! p.
Proof.
  intros Hp.
  assert (Hins : ∀ k m' m, remote.create remotePath m = Some (k, m') →
            k ≠ p ∧ m' !! p = m !! p).
  { intros k m' m Hc. apply create_key in Hc as [Hk ->].
    assert (k ≠ p) by congruence. split; [done|]. by rewrite lookup_insert_ne. }
  unfold CopyFile, os_Open, client_Create, io_Copy, bind, defer, next_fault, ret.
  destruct w as [m lf fs ss ol or fd tr]; simpl.
  destruct (lf !! localPath) as [data|]; [|reflexivity].
  destruct fs as [|[code|] fs]; simpl; try reflexivity.
  - destruct (remote.create remotePath m) as [[k m']|] eqn:Hc; simpl;
      [|reflexivity].
    destruct (Hins _ _ _ Hc) as [Hne Hm]. by rewrite lookup_insert_ne.
  - destruct (remote.create remotePath m) as [[k m']|] eqn:Hc; simpl;
      [|reflexivity].
    destruct (Hins _ _ _ Hc) as [Hne Hm].
    destruct fs as [|[code|] fs]; simpl; rewrite ?lookup_insert_ne by done;
      exact Hm.
Qed.

Lemma copyDirFn_frame (L R : string) (v : Visit) (w : World)
    (p : string) (x : rnode) :
  remote_fs w !! p = Some x →
  (∀ t, task_of L R v = Some t → task_kind t = FileCopy →
        last (remote.keys (task_remote t)) ≠ Some p) →
  remote_fs (fst (copyDirFn L R (v_path v) (v_info v) (v_err v) w)) !! p = Some x.
Proof.
  intros Hp Hkey. destruct (task_of L R v) as [t|] eqn:Ht.
  - rewrite (copyDirFn_task L R v t w Ht). cbn zeta.
    set (w0 := fst (emit (EvBegin t) w)).
    assert (Hm : remote_fs w0 = remote_fs w) by reflexivity.
    destruct (task_kind t) eqn:Hkind.
    + pose proof (RunCommand_extends (mkdir_command (task_remote t)) w0) as He.
      destruct (RunCommand _ w0) as [w1 r]. cbn [fst emit remote_fs] in *.
      apply He. by rewrite Hm.
    + pose proof (CopyFile_frame (task_local t) (task_remote t) p w0
                    (Hkey t eq_refl Hkind)) as Hf.
      destruct (CopyFile _ _ w0) as [w1 err]. cbn [fst emit remote_fs] in *.
      by rewrite Hf, Hm.
  - pose proof (copyDirFn_spec L R v w) as Hs. rewrite Ht in Hs.
    destruct (copyDirFn L R _ _ _ w) as [w1 r]. destruct Hs as (_ & _ & -> & _).
    exact Hp.
Qed.

Lemma Join_rel_inj (R : string) (ns ns' : list string) :
  Forall (λ n, valid_name n = true) ns →
  Forall (λ n, valid_name n = true) ns' →
  filepath.Join [R; rel_of ns] = filepath.Join [R; rel_of ns'] → ns = ns'.
Proof.
  intros Hns Hns'. rewrite !Join_names by assumption. intros Heq.
  apply render_inj in Heq.
  - by apply app_inv_head in Heq.
  - apply normal_snoc; [apply elems_of_normal | exact Hns].
  - apply normal_snoc; [apply elems_of_normal | exact Hns'].
Qed.

Lemma visit_all_frame (L R : string) (es : list (list string * fsnode))
    (p : string) (x : rnode) :
  ∀ w,
    Forall (λ e, Forall (λ n, valid_name n = true) (fst e)) es →
    (∀ e, In e es → filepath.Join [R; rel_of (fst e)] ≠ p) →
    remote_fs w !! p = Some x →
    remote_fs (fst (visit_all (copyDirFn L R) (map (visit_of L) es) w)) !! p
    = Some x.
Proof.
  induction es as [|e es IH]; intros w Hes Hne Hp; [exact Hp|].
  apply Forall_cons in Hes as [He Hes]. cbn [map visit_all]. unfold bind.
  assert (Hw1 : remote_fs (fst (copyDirFn L R (v_path (visit_of L e))
                                  (v_info (visit_of L e)) (v_err (visit_of L e)) w))
                  !! p = Some x).
  { apply (copyDirFn_frame L R (visit_of L e) w p x Hp).
    intros t Ht Hkind Hlast.
    assert (Hkeys : remote.keys (task_remote t) ≠ []).
    { intros Hk. by rewrite Hk in Hlast. }
    rewrite (keys_last _ Hkeys) in Hlast.
    destruct (task_remote_in_keys L R (visit_of L e) t Ht Hkeys) as [Hc _].
    rewrite Hc in Hlast. injection Hlast as Hbad.
    destruct (task_of_entry L R e t He Ht) as [-> _].
    cbn [entry_task task_remote] in Hbad.
    by apply (Hne e (or_introl eq_refl)). }
  destruct (copyDirFn L R _ _ _ w) as [w1 [err|]]; cbn [fst] in *;
    [exact Hw1|].
  apply IH; [exact Hes | | exact Hw1].
  intros e' He'. apply Hne. by right.
Qed.

Lemma visit_all_copied (L R : string) (es : list (list string * fsnode)) :
  ∀ (w w' : World) (r : option error) (evs : list Event) (t : Task),
    Forall (λ e, Forall (λ n, valid_name n = true) (fst e)) es →
    NoDup (map fst es) →
    visit_all (copyDirFn L R) (map (visit_of L) es) w = (w', r) →
    trace w' = trace w ++ evs →
    In (EvEnd t None) evs →
    task_kind t = FileCopy →
    ∃ data, local_files w !! task_local t = Some data
            ∧ remote_fs w' !! task_remote t = Some (RFile data).
Proof.
  induction es as [|e es IH]; intros w w' r evs t Hes Hnd Hrun Htr Hin Hkind;
    cbn [map visit_all] in Hrun.
  - unfold ret in Hrun. injection Hrun as <- _.
    rewrite <- (app_nil_r (trace w)) in Htr at 1. apply app_inv_head in Htr.
    subst evs. destruct Hin.
  - apply Forall_cons in Hes as [He Hes]. cbn [map] in Hnd.
    apply NoDup_cons in Hnd as [Hfresh Hnd]. unfold bind in Hrun.
    pose proof (copyDirFn_spec L R (visit_of L e) w) as Hv.
    destruct (copyDirFn L R _ _ _ w) as [w1 r1] eqn:Hfn.
    destruct Hv as (Hlf & _ & Hv).
    destruct (task_of L R (visit_of L e)) as [t0|] eqn:Ht0.
    + destruct Hv as (Htr1 & _ & _). destruct r1 as [err|].
      * unfold ret in Hrun. injection Hrun as <- _.
        rewrite Htr1 in Htr. apply app_inv_head in Htr. subst evs.
        destruct Hin as [?|[?|[]]]; discriminate.
      * pose proof (visit_all_seq L R (map (visit_of L) es) w1) as Hrest.
        rewrite Hrun in Hrest. destruct Hrest as (_ & _ & evs' & Htr' & _).
        rewrite Htr', Htr1, <- app_assoc in Htr. apply app_inv_head in Htr.
        subst evs. destruct Hin as [?|[Heq|Hin]]; [discriminate| |].
        -- injection Heq as ->.
           pose proof (copyDirFn_ok_effect L R _ t w w1 Ht0 Hfn) as Heff.
           rewrite Hkind in Heff. destruct Heff as (data & Hd & Hres).
           exists data. split; [exact Hd|].
           apply create_rops in Hres as (k & anc & Hk & Hput).
           assert (Hkeys : remote.keys (task_remote t) ≠ []).
           { intros Hnil. by rewrite Hnil in Hk. }
           destruct (task_remote_in_keys L R _ t Ht0 Hkeys) as [Hclean _].
           assert (Hkt : k = task_remote t).
           { apply rev_cons_last in Hk. rewrite (keys_last _ Hkeys) in Hk.
             congruence. }
           subst k. cbn [rop_run] in Hput.
           destruct (_ && _); [|discriminate]. injection Hput as Hw1.
           destruct (task_of_entry L R e t He Ht0) as [Ht _].
           pose proof (visit_all_frame L R es (task_remote t) (RFile data) w1 Hes)
             as Hframe.
           rewrite Hrun in Hframe. apply Hframe.
           ++ intros e' He' Heq. rewrite Ht in Heq. cbn [entry_task task_remote] in Heq.
              apply Join_rel_inj in Heq.
              ** apply Hfresh. rewrite <- Heq. apply list_elem_of_In.
                 by apply in_map.
              ** rewrite List.Forall_forall in Hes. by apply Hes.
              ** exact He.
           ++ rewrite <- Hw1. apply lookup_insert_eq.
        -- destruct (IH w1 w' r evs' t Hes Hnd Hrun Htr' Hin Hkind)
             as (data & Hd & Hm).
           exists data. by rewrite <- Hlf.
    + destruct Hv as (-> & err & -> & _). unfold ret in Hrun.
      injection Hrun as <- _.
      rewrite <- (app_nil_r (trace w)) in Htr at 1. apply app_inv_head in Htr.
      subst evs. destruct Hin.
Qed.

(** X12: in every run of [CopyDir] over a tree of well-formed names in
    which no directory lists a name twice and whose directory-create
    commands all have a plain operand, whatever the outcome of the run,
    a file-copy task that ended without error has left the bytes of its
    local file at its remote path, and they are there when [CopyDir]
    returns: a later failure does not undo or damage what was copied. *)
Theorem CopyDir_copied_files
    (L R : string) (tree : fsnode) (w w' : World) (r : option error)
    (evs : list Event) (t : Task) :
  wf_tree tree = true →
  NoDup (map fst (entries_of tree)) →
  plain_run L R tree = true →
  CopyDir L R tree w = (w', r) →
  trace w' = trace w ++ evs →
  In (EvEnd t None) evs →
  task_kind t = FileCopy →
  ∃ data, local_files w !! task_local t = Some data
          ∧ remote_fs w' !! task_remote t = Some (RFile data).
Proof.
  intros Hwf Hnd _ Hrun Htr Hin Hkind.
  rewrite CopyDir_visit_all, preorder_entries in Hrun.
  eapply visit_all_copied; try eassumption. by apply entries_valid.
Qed.

Lemma CopyDir_copied_files_witness :
  ∃ data,
    local_files world_late_fault !! "L/f1" = Some data
    ∧ remote_fs (fst (CopyDir "L" "/tmp/dst" tree_two_files world_late_fault))
        !! "/tmp/dst/f1" = Some (RFile data).
Proof.
  apply (CopyDir_copied_files "L" "/tmp/dst" tree_two_files world_late_fault
           (fst (CopyDir "L" "/tmp/dst" tree_two_files world_late_fault))
           (Some (TransportError 7))
           (trace (fst (CopyDir "L" "/tmp/dst" tree_two_files world_late_fault)))
           (mkTask FileCopy "L/f1" "/tmp/dst/f1")).
  - reflexivity.
  - apply (bool_decide_unpack _). vm_compute. exact I.
  - vm_compute. reflexivity.
  - vm_compute. reflexivity.
  - vm_compute. reflexivity.
  - vm_compute. tauto.
  - reflexivity.
Defined.

(** *** A root that is a regular file *)

Lemma Join_dot (R : string) : filepath.Join [R; "."] = filepath.Clean R.
Proof.
  change "." with (rel_of []). rewrite Join_names by constructor.
  rewrite app_nil_r. symmetry. apply Clean_elems.
Qed.

Lemma CopyFile_after_emit (localPath remotePath : string) (e : Event) (w : World) :
  snd (CopyFile localPath remotePath (fst (emit e w)))
  = snd (CopyFile localPath remotePath w)
  ∧ remote_fs (fst (CopyFile localPath remotePath (fst (emit e w))))
    = remote_fs (fst (CopyFile localPath remotePath w)).
Proof.
  unfold CopyFile, os_Open, client_Create, io_Copy, bind, defer, next_fault,
    ret, emit.
  destruct w as [m lf fs ss ol or fd tr]; simpl.
  destruct (lf !! localPath) as [data|]; [|by split].
  destruct fs as [|[code|] fs]; simpl;
    try destruct (remote.create remotePath m) as [[k m']|]; simpl;
    try destruct fs as [|[code'|] fs]; simpl; by split.
Qed.

(** X9: when the local root is not a directory, [CopyDir] makes no
    directory and copies the file onto the cleaned remote root itself,
    not into it: its error and its effect on the remote side are those
    of [CopyFile] from the local root to the cleaned remote root. *)
Theorem CopyDir_single_file (L R : string) (w : World) :
  snd (CopyDir L R Regular w) = snd (CopyFile L (filepath.Clean R) w)
  ∧ remote_fs (fst (CopyDir L R Regular w))
    = remote_fs (fst (CopyFile L (filepath.Clean R) w))
  ∧ trace (fst (CopyDir L R Regular w))
    = trace w ++ [EvBegin (mkTask FileCopy L (filepath.Clean R));
                  EvEnd (mkTask FileCopy L (filepath.Clean R))
                        (snd (CopyDir L R Regular w))].
Proof.
  rewrite CopyDir_visit_all. cbn [preorder visit_all]. unfold bind.
  set (v := mkVisit L (Some {| IsDir := false |}) None).
  set (t := mkTask FileCopy L (filepath.Clean R)).
  assert (Ht : task_of L R v = Some t).
  { unfold task_of, v, t. cbn [v_err v_path v_info IsDir].
    by rewrite Rel_root, Join_dot. }
  pose proof (copyDirFn_spec L R v w) as Hs. rewrite Ht in Hs.
  rewrite (copyDirFn_task L R v t w Ht) in *. cbn zeta in *.
  cbn [task_kind task_local task_remote t] in *. fold t in Hs |- *.
  destruct (CopyFile_after_emit L (filepath.Clean R) (EvBegin t) w) as [He Hm].
  destruct (CopyFile L (filepath.Clean R) (fst (emit (EvBegin t) w)))
    as [w1 err]. cbn [fst snd] in *.
  destruct Hs as (_ & _ & Htr & _). cbn [emit fst remote_fs] in *.
  destruct err as [e|]; unfold ret; cbn [fst snd remote_fs trace];
    (split; [exact He|]; split; [exact Hm | exact Htr]).
Qed.

(** *** Running again after a failure *)

Lemma kind_file (o : option rnode) : kind o = Some false ↔ ∃ d, o = Some (RFile d).
Proof.
  destruct o as [[|d]|]; simpl; split; try congruence; try (intros [? ?]; congruence).
  intros _. by exists d.
Qed.

Lemma rop_recover (o : rop) (os : list rop) (A B A1 Afin : gmap string rnode) :
  rop_run o A = Some A1 → persists A1 Afin → recovers (o :: os) A B Afin →
  ∃ B1, rop_run o B = Some B1 ∧ recovers os A1 B1 Afin.
Proof.
  intros Ho Hp Hrec. destruct o as [k|parent k data]; cbn [rop_run] in Ho |- *.
  - assert (HA1 : A1 !! k = Some RDir).
    { destruct (A !! k) as [[|d]|] eqn:Hk; try discriminate;
        injection Ho as <-; [exact Hk | apply lookup_insert_eq]. }
    assert (Hfin : Afin !! k = Some RDir).
    { specialize (Hp k). by rewrite HA1 in Hp. }
    assert (Hother : ∀ B1, (∀ p, p ≠ k → B1 !! p = B !! p) → B1 !! k = Some RDir →
                           recovers os A1 B1 Afin).
    { intros B1 Hsame Hk p. destruct (decide (p = k)) as [->|Hne].
      - left. congruence.
      - rewrite (Hsame p Hne).
        assert (HA : A1 !! p = A !! p).
        { destruct (A !! k) as [[|d]|]; try discriminate; injection Ho as <-;
            [reflexivity | by rewrite lookup_insert_ne]. }
        rewrite HA. destruct (Hrec p) as [?|[Hkind [?|(par & d & [Heq|Hin])]]];
          [by left | right; by split; [|left] | discriminate |].
        right. split; [exact Hkind|]. right. by exists par, d. }
    destruct (B !! k) as [[|d]|] eqn:HBk.
    + exists B. split; [reflexivity|]. by apply Hother.
    + exfalso. destruct (Hrec k) as [Heq|[Hkind _]].
      * rewrite HBk in Heq. rewrite <- Heq in Ho. discriminate.
      * rewrite HBk, Hfin in Hkind. discriminate.
    + exists (<[k := RDir]> B). split; [reflexivity|]. apply Hother.
      * intros p Hne. by rewrite lookup_insert_ne.
      * apply lookup_insert_eq.
  - destruct (_ && _) eqn:Hok in Ho; [|discriminate]. injection Ho as <-.
    apply andb_true_iff in Hok as [Hparent Hk].
    apply negb_true_iff, bool_decide_eq_false in Hk.
    assert (Hfink : ∃ d, Afin !! k = Some (RFile d)).
    { specialize (Hp k). by rewrite lookup_insert_eq in Hp. }
    assert (HBk : B !! k ≠ Some RDir).
    { intros HB. destruct (Hrec k) as [Heq|[Hkind _]]; [congruence|].
      destruct Hfink as [d Hd]. rewrite HB, Hd in Hkind. discriminate. }
    assert (HBparent :
      match parent with
      | None => true
      | Some p => bool_decide (B !! p = Some RDir)
      end = true).
    { destruct parent as [par|]; [|reflexivity].
      apply bool_decide_eq_true in Hparent. apply bool_decide_eq_true.
      destruct (Hrec par) as [Heq|[Hkind _]]; [congruence|].
      apply kind_dir. rewrite Hkind. apply kind_dir.
      assert (par ≠ k) by congruence.
      specialize (Hp par). rewrite lookup_insert_ne in Hp by congruence.
      by rewrite Hparent in Hp. }
    rewrite HBparent, (bool_decide_eq_false_2 _ HBk). cbn [negb andb].
    exists (<[k := RFile data]> B). split; [reflexivity|].
    intros p. destruct (decide (p = k)) as [->|Hne].
    + left. by rewrite !lookup_insert_eq.
    + rewrite !lookup_insert_ne by congruence.
      destruct (Hrec p) as [?|[Hkind [?|(par & d & [Heq|Hin])]]];
        [by left | right; by split; [|left] | congruence |].
      right. split; [exact Hkind|]. right. by exists par, d.
Qed.

Lemma rops_recover (os : list rop) :
  ∀ A B Afin,
    rops_run os A = Some Afin → recovers os A B Afin → rops_run os B = Some Afin.
Proof.
  induction os as [|o os IH]; intros A B Afin Hrun Hrec; cbn [rops_run] in *.
  - injection Hrun as <-. f_equal. apply map_eq. intros p.
    destruct (Hrec p) as [?|[Hkind [HA|(? & ? & [])]]]; [done|].
    rewrite HA in *. by apply kind_dir.
  - destruct (rop_run o A) as [A1|] eqn:Ho; [|discriminate].
    destruct (rop_recover o os A B A1 Afin Ho) as (B1 & -> & Hrec1);
      [by eapply rops_run_persists | exact Hrec|].
    by apply (IH A1).
Qed.

(** What the steps of a run have touched. *)
Lemma rops_run_touched (os : list rop) :
  ∀ A A' p,
    rops_run os A = Some A' → A' !! p ≠ A !! p →
    A' !! p = Some RDir
    ∨ ((∃ d, A' !! p = Some (RFile d))
       ∧ ∃ parent data, In (PutFile parent p data) os).
Proof.
  induction os as [|o os IH]; intros A A' p Hrun Hne; cbn [rops_run] in Hrun.
  - injection Hrun as <-. congruence.
  - destruct (rop_run o A) as [A1|] eqn:Ho; [|discriminate].
    destruct (decide (A' !! p = A1 !! p)) as [Heq|Hneq].
    + rewrite Heq in *. pose proof (rops_run_persists os A1 A' Hrun p) as Hp.
      destruct o as [k|parent k data]; cbn [rop_run] in Ho.
      * left. destruct (A !! k) as [[|d]|] eqn:Hk; try discriminate;
          injection Ho as <-; [congruence|].
        destruct (decide (p = k)) as [->|Hpk]; [apply lookup_insert_eq|].
        rewrite lookup_insert_ne in Hne by congruence. congruence.
      * destruct (_ && _); [|discriminate]. injection Ho as <-.
        destruct (decide (p = k)) as [->|Hpk].
        -- right. rewrite lookup_insert_eq. split; [by eexists|].
           exists parent, data. by left.
        -- rewrite lookup_insert_ne in Hne by congruence. congruence.
    + destruct (IH A1 A' p Hrun Hneq) as [?|[Hfile (par & d & Hin)]]; [by left|].
      right. split; [exact Hfile|]. exists par, d. by right.
Qed.

(** A successful run is the run of its steps, whatever the fault
    schedule was. *)
Lemma visit_all_run_rops (L R : string) (vs : list Visit) :
  ∀ w w',
    visit_all (copyDirFn L R) vs w = (w', None) →
    ∃ ops, run_rops (local_files w) L R vs = Some ops
           ∧ rops_run ops (remote_fs w) = Some (remote_fs w').
Proof.
  induction vs as [|v vs IH]; intros w w' Hrun; cbn [visit_all run_rops] in *.
  - unfold ret in Hrun. injection Hrun as <-. by exists [].
  - unfold bind in Hrun.
    pose proof (copyDirFn_spec L R v w) as Hs.
    destruct (copyDirFn L R (v_path v) (v_info v) (v_err v) w) as [w1 r1] eqn:Hfn.
    destruct r1 as [e|]; [unfold ret in Hrun; discriminate|].
    destruct Hs as (Hlf & _ & Hs).
    destruct (task_of L R v) as [t|] eqn:Ht; [|by destruct Hs as (_ & ? & ? & _)].
    pose proof (copyDirFn_ok_effect L R v t w w1 Ht Hfn) as Heff.
    assert (Hres : task_result (local_files w) t (remote_fs w) = (remote_fs w1, None)).
    { unfold task_result. destruct (task_kind t); [exact Heff|].
      destruct Heff as (data & -> & Hc). exact Hc. }
    apply task_result_rops in Hres as (o & Ho & Hrun1).
    destruct (IH w1 w' Hrun) as (os & Hos & Hrun2).
    rewrite Hlf in Hos. rewrite Ho, Hos. exists (o ++ os).
    split; [reflexivity|]. by rewrite rops_run_app, Hrun1.
Qed.

Lemma run_rops_visit_all (L R : string) (vs : list Visit) :
  ∀ w ops m',
    faults w = [] →
    run_rops (local_files w) L R vs = Some ops →
    rops_run ops (remote_fs w) = Some m' →
    ∃ w', visit_all (copyDirFn L R) vs w = (w', None) ∧ remote_fs w' = m'.
Proof.
  induction vs as [|v vs IH]; intros w ops m' Hf Hops Hrun;
    cbn [visit_all run_rops] in *.
  - injection Hops as <-. cbn in Hrun. injection Hrun as <-. by exists w.
  - destruct (task_of L R v) as [t|] eqn:Ht; [|discriminate].
    destruct (rops_of (local_files w) t) as [o|] eqn:Ho; [|discriminate].
    destruct (run_rops (local_files w) L R vs) as [os|] eqn:Hos; [|discriminate].
    injection Hops as <-. rewrite rops_run_app in Hrun.
    destruct (rops_run o (remote_fs w)) as [m1|] eqn:Hm1; [|discriminate].
    assert (Hres : task_result (local_files w) t (remote_fs w) = (m1, None)).
    { apply task_result_rops. by exists o. }
    unfold bind. pose proof (copyDirFn_spec L R v w) as Hs. rewrite Ht in Hs.
    destruct (copyDirFn L R (v_path v) (v_info v) (v_err v) w) as [w1 r1].
    destruct Hs as (Hlf & _ & _ & _ & Hs). destruct (Hs Hf) as [Hf1 Heq].
    rewrite Hres in Heq. injection Heq as Hm ->.
    apply (IH w1 os m'); [exact Hf1 | by rewrite Hlf | by rewrite Hm].
Qed.

Lemma run_rops_app (files : gmap string string) (L R : string)
    (l1 l2 : list Visit) :
  run_rops files L R (l1 ++ l2) =
    match run_rops files L R l1, run_rops files L R l2 with
    | Some a, Some b => Some (a ++ b)
    | _, _ => None
    end.
Proof.
  induction l1 as [|v l1 IH]; cbn [app run_rops].
  - by destruct (run_rops files L R l2).
  - destruct (task_of L R v) as [t|]; [|reflexivity].
    destruct (rops_of files t) as [o|]; [|reflexivity].
    rewrite IH. destruct (run_rops files L R l1) as [a|]; [|reflexivity].
    destruct (run_rops files L R l2) as [b|]; [|reflexivity].
    by rewrite app_assoc.
Qed.

(** What [CopyFile] can have done to the remote side: nothing, the
    creation alone, or the creation and the bytes. *)
Lemma CopyFile_effect (localPath remotePath : string) (w : World) :
  remote_fs (fst (CopyFile localPath remotePath w)) = remote_fs w
  ∨ ∃ k m', remote.create remotePath (remote_fs w) = Some (k, m')
            ∧ (remote_fs (fst (CopyFile localPath remotePath w)) = m'
               ∨ snd (CopyFile localPath remotePath w) = None).
Proof.
  unfold CopyFile, os_Open, client_Create, io_Copy, bind, defer, next_fault, ret.
  destruct w as [m lf fs ss ol or fd tr]; simpl.
  destruct (lf !! localPath) as [data|]; [|by left].
  destruct fs as [|[code|] fs]; simpl; try (by left).
  - destruct (remote.create remotePath m) as [[k m']|] eqn:Hc; simpl; [|by left].
    right. exists k, m'. split; [reflexivity | by right].
  - destruct (remote.create remotePath m) as [[k m']|] eqn:Hc; simpl; [|by left].
    right. exists k, m'. split; [reflexivity|].
    destruct fs as [|[code|] fs]; simpl; [by right | by left | by right].
Qed.

(** What a task that failed has done, when it would have succeeded over
    a reliable transport: nothing, or the creation of the remote file
    without its bytes. *)
Lemma copyDirFn_fail_effect (L R : string) (v : Visit) (t : Task)
    (w w1 : World) (e : error) (m1 : gmap string rnode) :
  task_of L R v = Some t →
  copyDirFn L R (v_path v) (v_info v) (v_err v) w = (w1, Some e) →
  task_result (local_files w) t (remote_fs w) = (m1, None) →
  remote_fs w1 = remote_fs w
  ∨ (task_kind t = FileCopy
     ∧ ∃ k m', remote.create (task_remote t) (remote_fs w) = Some (k, m')
               ∧ remote_fs w1 = m').
Proof.
  intros Ht Hfn Hres. rewrite (copyDirFn_task L R v t w Ht) in Hfn.
  cbn zeta in Hfn. set (w0 := fst (emit (EvBegin t) w)) in Hfn.
  assert (Hm : remote_fs w0 = remote_fs w) by reflexivity.
  unfold task_result in Hres. destruct (task_kind t).
  - pose proof (RunCommand_spec (mkdir_command (task_remote t)) w0) as Hs.
    destruct (RunCommand _ w0) as [w2 [out err]]. cbn [snd emit fst] in Hfn.
    injection Hfn as <- ->. cbn [remote_fs].
    destruct Hs as (_ & _ & [(c & _ & _ & Hsame)|[Heq _]]).
    + left. by rewrite Hsame.
    + rewrite Hm, Hres in Heq. discriminate.
  - pose proof (CopyFile_effect (task_local t) (task_remote t) w0) as He.
    destruct (CopyFile _ _ w0) as [w2 err]. cbn [emit fst snd] in Hfn, He.
    injection Hfn as <- ->. cbn [remote_fs].
    destruct He as [Hsame|(k & m' & Hc & [Hw2|?])]; [left; by rewrite Hsame| |discriminate].
    right. split; [reflexivity|]. exists k, m'. by rewrite <- Hm.
Qed.

Lemma recovers_prefix (done rest : list rop) (A0 Ak Afin : gmap string rnode) :
  rops_run done A0 = Some Ak → persists Ak Afin →
  recovers (done ++ rest) A0 Ak Afin.
Proof.
  intros Hrun Hp p. destruct (decide (Ak !! p = A0 !! p)) as [?|Hne]; [by left|].
  right. destruct (rops_run_touched done A0 Ak p Hrun Hne)
    as [Hdir|[[d Hd] (par & data & Hin)]].
  - specialize (Hp p). rewrite Hdir in Hp. rewrite Hdir, Hp. split; [reflexivity | by left].
  - specialize (Hp p). rewrite Hd in Hp. destruct Hp as [d' Hd'].
    rewrite Hd, Hd'. split; [reflexivity|]. right. exists par, data.
    apply in_or_app. by left.
Qed.

(** X13: over a tree whose directory-create commands all have a plain
    operand, when a run of [CopyDir] has failed although the same run
    over a reliable transport would have succeeded, running [CopyDir]
    again over a reliable transport, on what the failed run left,
    succeeds and ends in the remote file system the undisturbed run
    would have reached: directories that were made are accepted, files
    that were copied or left without their bytes are written again. *)
Theorem CopyDir_rerun_recovers
    (L R : string) (tree : fsnode) (w w1 wfin : World) (e : error) :
  plain_run L R tree = true →
  CopyDir L R tree (with_faults [] w) = (wfin, None) →
  CopyDir L R tree w = (w1, Some e) →
  ∃ w2, CopyDir L R tree (with_faults [] w1) = (w2, None)
        ∧ remote_fs w2 = remote_fs wfin.
Proof.
  rewrite !CopyDir_visit_all. intros _ Hclean Hfail.
  set (vs := preorder L tree) in *.
  destruct (visit_all_run_rops L R vs _ _ Hclean) as (ops & Hops & Hrun).
  cbn [with_faults local_files remote_fs] in Hops, Hrun.
  pose proof (visit_all_seq L R vs w) as Hseq. rewrite Hfail in Hseq.
  destruct Hseq as (Hlf1 & _ & _).
  apply visit_all_first_error in Hfail as (done & v & rest & wk & Hvs & Hdone & Hfn).
  destruct (visit_all_run_rops L R done _ _ Hdone) as (ops_d & Hops_d & Hrun_d).
  pose proof (visit_all_seq L R done w) as Hseqd. rewrite Hdone in Hseqd.
  destruct Hseqd as (Hlfk & _ & _).
  rewrite Hvs, run_rops_app, Hops_d in Hops. cbn [run_rops] in Hops.
  destruct (task_of L R v) as [t|] eqn:Ht; [|discriminate].
  destruct (rops_of (local_files w) t) as [o|] eqn:Ho; [|discriminate].
  destruct (run_rops (local_files w) L R rest) as [ops_r|] eqn:Hops_r;
    [|discriminate].
  injection Hops as <-.
  rewrite rops_run_app, Hrun_d in Hrun. rewrite rops_run_app in Hrun.
  destruct (rops_run o (remote_fs wk)) as [Ak1|] eqn:Hov; [|discriminate].
  assert (Hpk : persists (remote_fs wk) (remote_fs wfin)).
  { eapply persists_trans; by eapply rops_run_persists. }
  assert (Hres : task_result (local_files wk) t (remote_fs wk) = (Ak1, None)).
  { apply task_result_rops. exists o. by rewrite Hlfk. }
  assert (Hrec : recovers (ops_d ++ o ++ ops_r) (remote_fs w) (remote_fs w1)
                   (remote_fs wfin)).
  { pose proof (recovers_prefix ops_d (o ++ ops_r) _ _ _ Hrun_d Hpk) as Hbase.
    destruct (copyDirFn_fail_effect L R v t wk w1 e Ak1 Ht Hfn Hres)
      as [->|(Hkind & k & m' & Hc & ->)]; [exact Hbase|].
    apply create_key in Hc as [Hlast ->]. intros p.
    destruct (decide (p = k)) as [->|Hne];
      [|rewrite lookup_insert_ne by congruence; apply Hbase].
    right. rewrite lookup_insert_eq.
    pose proof Ho as Ho'. unfold rops_of in Ho. rewrite Hkind in Ho.
    destruct (local_files w !! task_local t) as [data|]; [|discriminate].
    destruct (rev (remote.keys (task_remote t))) as [|k' anc] eqn:Hrev;
      [discriminate|].
    injection Ho as <-. apply rev_cons_last in Hrev.
    assert (k' = k) by congruence. subst k'.
    cbn [rops_run rop_run] in Hov. destruct (_ && _); [|discriminate].
    injection Hov as <-.
    pose proof (rops_run_persists ops_r _ _ Hrun k) as Hp.
    rewrite lookup_insert_eq in Hp. destruct Hp as [d' Hd']. rewrite Hd'.
    split; [reflexivity|]. right. exists (head anc), data.
    apply in_or_app. right. by left. }
  assert (Hagain : rops_run (ops_d ++ o ++ ops_r) (remote_fs w1)
                   = Some (remote_fs wfin)).
  { apply (rops_recover _ (remote_fs w)); [|exact Hrec].
    by rewrite rops_run_app, Hrun_d, rops_run_app, Hov. }
  apply (run_rops_visit_all L R vs (with_faults [] w1) (ops_d ++ o ++ ops_r)).
  - reflexivity.
  - cbn [with_faults local_files]. rewrite Hlf1. subst vs.
    rewrite Hvs, run_rops_app, Hops_d. cbn [run_rops].
    by rewrite Ht, Ho, Hops_r.
  - exact Hagain.
Qed.

Lemma CopyDir_rerun_recovers_witness :
  ∃ w2,
    CopyDir "L" "/tmp/dst" tree_two_files
      (with_faults [] (fst (CopyDir "L" "/tmp/dst" tree_two_files world_late_fault)))
    = (w2, None)
    ∧ remote_fs w2
      = remote_fs (fst (CopyDir "L" "/tmp/dst" tree_two_files
                          (with_faults [] world_late_fault))).
Proof.
  apply (CopyDir_rerun_recovers "L" "/tmp/dst" tree_two_files world_late_fault
           (fst (CopyDir "L" "/tmp/dst" tree_two_files world_late_fault))
           (fst (CopyDir "L" "/tmp/dst" tree_two_files
                   (with_faults [] world_late_fault)))
           (TransportError 7)).
  - vm_compute. reflexivity.
  - vm_compute. reflexivity.
  - vm_compute. reflexivity.
Defined.

(** ** What a run leaves on the remote side *)

(** X8: a run of [CopyDir] over a tree of well-formed names whose
    directory-create commands all have a plain operand, whatever its
    outcome, takes nothing away on the remote side: what was a directory
    is a directory afterwards, what was a file is a file, and what is at
    a path that no entry of the tree is sent to is as it was, bytes
    included; the local files are as before. *)
Theorem CopyDir_only_adds
    (L R : string) (tree : fsnode) (w w' : World) (r : option error) :
  wf_tree tree = true →
  plain_run L R tree = true →
  CopyDir L R tree w = (w', r) →
  persists (remote_fs w) (remote_fs w')
  ∧ (∀ p x, remote_fs w !! p = Some x → ¬ In p (targets R tree) →
            remote_fs w' !! p = Some x)
  ∧ local_files w' = local_files w.
Proof.
  rewrite CopyDir_visit_all. intros Hwf _ Hrun.
  pose proof (visit_all_seq L R (preorder L tree) w) as Hs. rewrite Hrun in Hs.
  destruct Hs as (Hlf & Hpers & _). split; [exact Hpers|]. split; [|exact Hlf].
  intros p x Hp Hout. rewrite preorder_entries in Hrun.
  pose proof (visit_all_frame L R (entries_of tree) p x w (entries_valid tree Hwf))
    as Hframe.
  rewrite Hrun in Hframe. apply Hframe; [|exact Hp].
  intros e He Heq. apply Hout. unfold targets. rewrite <- Heq.
  by apply (in_map (λ e, filepath.Join [R; rel_of (fst e)])).
Qed.

Lemma CopyDir_only_adds_witness :
  persists (remote_fs world_kept)
    (remote_fs (fst (CopyDir "L" "/tmp/dst" tree_two_files world_kept)))
  ∧ (∀ p x, remote_fs world_kept !! p = Some x →
            ¬ In p (targets "/tmp/dst" tree_two_files) →
            remote_fs (fst (CopyDir "L" "/tmp/dst" tree_two_files world_kept)) !! p
            = Some x)
  ∧ local_files (fst (CopyDir "L" "/tmp/dst" tree_two_files world_kept))
    = local_files world_kept.
Proof.
  apply (CopyDir_only_adds "L" "/tmp/dst" tree_two_files world_kept
           (fst (CopyDir "L" "/tmp/dst" tree_two_files world_kept))
           (Some (TransportError 7))).
  - reflexivity.
  - vm_compute. reflexivity.
  - vm_compute. reflexivity.
Defined.

(** ** Stopping at the first error *)

(** C4: when the entries before some entry of the pre-order list were
    processed without error and the walk function fails at that entry,
    whether because the entry could not be read or because its
    directory-create or file copy failed, [CopyDir] returns that very
    error and the world that call left, so no later entry is touched;
    an error of reading the entry is handed back as it is, with nothing
    done.  Over a tree of well-formed names in which no directory lists
    a name twice and whose directory-create commands all have a plain
    operand, what the tasks that ended without error have transferred
    is in place when [CopyDir] returns: the directories with their
    ancestors, the files with the bytes of the local ones. *)
Theorem CopyDir_stops_at_first_error
    (L R : string) (tree : fsnode) (w wk w' : World) (e : error)
    (done rest : list Visit) (v : Visit) :
  preorder L tree = done ++ v :: rest →
  visit_all (copyDirFn L R) done w = (wk, None) →
  copyDirFn L R (v_path v) (v_info v) (v_err v) wk = (w', Some e) →
  CopyDir L R tree w = (w', Some e)
  ∧ (∀ e0, v_err v = Some e0 → e = e0 ∧ w' = wk)
  ∧ (wf_tree tree = true →
     NoDup (map fst (entries_of tree)) →
     plain_run L R tree = true →
     ∀ evs t, trace w' = trace w ++ evs → In (EvEnd t None) evs →
              in_place (local_files w) t (remote_fs w')).
Proof.
  intros Hpre Hdone Hfail.
  assert (Hrun : CopyDir L R tree w = (w', Some e)).
  { rewrite CopyDir_visit_all, Hpre, visit_all_app, Hdone.
    cbn [visit_all]. unfold bind. by rewrite Hfail. }
  split; [exact Hrun|]. split.
  - intros e0 He0. unfold copyDirFn in Hfail. rewrite He0 in Hfail.
    unfold ret in Hfail. by injection Hfail as <- <-.
  - intros Hwf Hnd Hplain evs t Htr Hin. unfold in_place.
    destruct (task_kind t) eqn:Hkind.
    + pose proof (plain_run_ended _ _ _ _ _ _ _ _ _ Hplain Hrun Htr Hin Hkind)
        as Hq.
      rewrite CopyDir_visit_all in Hrun. by eapply visit_all_made.
    + rewrite CopyDir_visit_all, preorder_entries in Hrun.
      eapply visit_all_copied; try eassumption. by apply entries_valid.
Qed.

Lemma CopyDir_stops_at_first_error_witness :
  CopyDir "L" "/tmp/dst" tree_two_files world_late_fault
  = (fst (CopyDir "L" "/tmp/dst" tree_two_files world_late_fault),
     Some (TransportError 7))
  ∧ (∀ e0, None = Some e0 →
       TransportError 7 = e0
       ∧ fst (CopyDir "L" "/tmp/dst" tree_two_files world_late_fault)
         = fst (visit_all (copyDirFn "L" "/tmp/dst")
                  [mkVisit "L" (Some {| IsDir := true |}) None;
                   mkVisit "L/f1" (Some {| IsDir := false |}) None]
                  world_late_fault))
  ∧ (∀ evs t,
       trace (fst (CopyDir "L" "/tmp/dst" tree_two_files world_late_fault))
       = trace world_late_fault ++ evs →
       In (EvEnd t None) evs →
       in_place (local_files world_late_fault) t
         (remote_fs (fst (CopyDir "L" "/tmp/dst" tree_two_files world_late_fault)))).
Proof.
  destruct (CopyDir_stops_at_first_error "L" "/tmp/dst" tree_two_files
              world_late_fault
              (fst (visit_all (copyDirFn "L" "/tmp/dst")
                      [mkVisit "L" (Some {| IsDir := true |}) None;
                       mkVisit "L/f1" (Some {| IsDir := false |}) None]
                      world_late_fault))
              (fst (CopyDir "L" "/tmp/dst" tree_two_files world_late_fault))
              (TransportError 7)
              [mkVisit "L" (Some {| IsDir := true |}) None;
               mkVisit "L/f1" (Some {| IsDir := false |}) None]
              []
              (mkVisit "L/f2" (Some {| IsDir := false |}) None))
    as (Hrun & Herr & Hplace).
  - vm_compute. reflexivity.
  - vm_compute. reflexivity.
  - vm_compute. reflexivity.
  - split; [exact Hrun|]. split; [exact Herr|]. apply Hplace.
    + reflexivity.
    + apply (bool_decide_unpack _). vm_compute. exact I.
    + vm_compute. reflexivity.
Defined.

(** ** Trees and roots that give plain operands *)

Lemma has_join (p : ascii → bool) (l : list string) :
  p "/"%char = false →
  Forall (λ e, Str.has p e = false) l → Str.has p (Str.join l) = false.
Proof.
  intros Hsep. induction 1 as [|x l Hx Hl IH]; [reflexivity|].
  destruct l as [|y l]; [exact Hx|].
  rewrite join_cons, has_append, Hx. cbn [Str.has orb]. by rewrite Hsep, IH.
Qed.

Lemma has_render (p : ascii → bool) (rooted : bool) (l : list string) :
  p "/"%char = false → p "."%char = false →
  Forall (λ e, Str.has p e = false) l →
  Str.has p (filepath.render rooted l) = false.
Proof.
  intros Hsep Hdot Hl. unfold filepath.render. destruct rooted.
  - sapp. cbn [Str.has]. by rewrite Hsep, has_join.
  - destruct l as [|x l]; [cbn [Str.has]; by rewrite Hdot | by apply has_join].
Qed.

Lemma has_split (p : ascii → bool) (s : string) :
  Str.has p s = false → Forall (λ e, Str.has p e = false) (Str.split s).
Proof.
  induction s as [|c s IH]; cbn [Str.split Str.has]; [by repeat constructor|].
  intros H. apply orb_false_iff in H as [Hc Hs]. specialize (IH Hs).
  destruct (Str.is_slash c); [by constructor|].
  destruct (Str.split s) as [|x xs].
  - repeat constructor. cbn [Str.has]. by rewrite Hc.
  - apply Forall_cons in IH as [Hx Hxs]. constructor; [|exact Hxs].
    cbn [Str.has]. by rewrite Hc, Hx.
Qed.

Lemma clean_step_keeps (P : string → Prop) (rooted : bool)
    (stk : list string) (e : string) :
  Forall P stk → P e → Forall P (filepath.clean_step rooted stk e).
Proof.
  intros Hstk He. unfold filepath.clean_step.
  destruct (String.eqb e ""); [exact Hstk|].
  destruct (String.eqb e "."); [exact Hstk|].
  destruct (String.eqb e ".."); [|by constructor].
  destruct stk as [|top below]; [destruct rooted; by repeat constructor|].
  destruct (String.eqb top ".."); [by constructor|].
  by apply Forall_cons in Hstk as [_ ?].
Qed.

Lemma clean_elems_keeps (P : string → Prop) (rooted : bool) (l : list string) :
  Forall P l → Forall P (filepath.clean_elems rooted l).
Proof.
  intros Hl. unfold filepath.clean_elems. apply Forall_rev_iff.
  assert (Hgen : ∀ stk, Forall P stk →
                        Forall P (fold_left (filepath.clean_step rooted) l stk)).
  { induction Hl as [|x l Hx Hl IH]; intros stk Hstk; [exact Hstk|].
    cbn [fold_left]. apply IH. by apply clean_step_keeps. }
  apply Hgen. constructor.
Qed.

Lemma elems_of_keeps (p : ascii → bool) (s : string) :
  Str.has p s = false → Forall (λ e, Str.has p e = false) (elems_of s).
Proof.
  intros Hs. unfold elems_of. destruct (Str.is_empty s); [constructor|].
  by apply clean_elems_keeps, has_split.
Qed.

Lemma entries_quote_free (n : fsnode) :
  quote_free n = true →
  Forall (λ e, Forall (λ x, Str.has Str.is_quote x = false) (fst e))
         (entries_of n).
Proof.
  induction n as [errno| |rderr entries IH] using fsnode_ind'; intros Hq;
    try (by repeat constructor).
  cbn [entries_of]. constructor; [constructor|].
  destruct rderr as [errno|]; [constructor|]. cbn [quote_free] in Hq.
  induction IH as [|[name child] entries Hc _ IHes]; [constructor|].
  apply andb_true_iff in Hq as [Hq Hrest].
  apply andb_true_iff in Hq as [Hname Hchild].
  apply negb_true_iff in Hname.
  apply Forall_app. split; [|by apply IHes].
  apply Forall_map. eapply Forall_impl; [by apply Hc|].
  intros [ns x] Hns. by constructor.
Qed.

Lemma render_head (p : ascii → bool) (rooted : bool) (l more : list string) :
  Forall solid l → (rooted = true ∨ l ≠ []) →
  Str.head_is p (filepath.render rooted (l ++ more))
  = Str.head_is p (filepath.render rooted l).
Proof.
  intros Hl Hne. unfold filepath.render. destruct rooted.
  - sapp. reflexivity.
  - destruct Hne as [?|Hne]; [discriminate|].
    destruct l as [|x l]; [congruence|]. cbn [app].
    apply Forall_cons in Hl as [[Hx _] _].
    assert (Hx' : x ≠ "") by (intros ->; discriminate).
    assert (Hhead : ∀ rest, Str.head_is p (Str.join (x :: rest)) = Str.head_is p x).
    { intros [|y rest]; [reflexivity|]. by rewrite join_cons, head_is_append. }
    by rewrite !Hhead.
Qed.

(** A remote root without an apostrophe that is cleaned to something
    other than ["."] and does not begin with a dash, over a tree of
    well-formed names without an apostrophe, gives every
    directory-create command a plain operand. *)
Lemma plain_names_run (L R : string) (tree : fsnode) :
  wf_tree tree = true →
  quote_free tree = true →
  Str.has Str.is_quote R = false →
  Str.head_is (Ascii.eqb "-") (filepath.Clean R) = false →
  filepath.Clean R ≠ "." →
  plain_run L R tree = true.
Proof.
  intros Hwf Hqf HR Hdash Hdot. unfold plain_run.
  rewrite preorder_entries. apply forallb_forall. intros v Hv.
  apply in_map_iff in Hv as (e & <- & He). unfold plain_visit.
  destruct (task_of L R (visit_of L e)) as [t|] eqn:Ht; [|reflexivity].
  pose proof (entries_valid tree Hwf) as Hvalid.
  pose proof (entries_quote_free tree Hqf) as Hquote.
  rewrite List.Forall_forall in Hvalid, Hquote.
  destruct (task_of_entry L R e t (Hvalid e He) Ht) as [-> _].
  destruct (task_kind _); [|reflexivity].
  cbn [entry_task task_remote]. rewrite Join_names by (by apply Hvalid).
  unfold plain_operand. apply andb_true_iff. split; apply negb_true_iff.
  - apply has_render; [reflexivity | reflexivity |].
    apply Forall_app. split; [by apply elems_of_keeps | by apply Hquote].
  - pose proof (elems_of_normal R) as Hn.
    apply normal_rev_solid in Hn as [Hsolid _].
    rewrite render_head; [by rewrite <- Clean_elems | exact Hsolid |].
    destruct (rooted_of R) eqn:Hroot; [by left | right].
    intros Hnil. apply Hdot. rewrite Clean_elems, Hroot, Hnil. reflexivity.
Qed.
